(** * SpotiTransfer: the liked-songs transfer pipeline of [spotify_service.py]

    A shallow embedding of the two generators of [spotify_service.py],
    [get_all_saved_tracks] and [transfer_tracks], together with the
    properties of the pipeline that the specification states.

    Both generators talk to the outside world (HTTP calls, [time.sleep],
    [yield]).  They are embedded in a small state / exception / writer monad:
    the writer records, in program order, the actions a run is observed by
    (every yielded event, every HTTP call, every sleep, every evaluation of
    the percent division); the outcome of the n-th HTTP call is given by an
    oracle, so that a theorem quantified over the oracle holds for every
    behaviour of the remote API.  [get_all_saved_tracks] loops [while True]
    and is run with fuel, one unit per iteration. *)

From Stdlib Require Import ZArith String Ascii List Lia Bool.
From Stdlib Require Import Floats.SpecFloat.
From Stdlib Require Import Sorting.Permutation.
From stdpp Require Import base tactics option list numbers strings pretty sorting.
From stdpp Require Import gmap.

Local Open Scope string_scope.
Local Open Scope list_scope.
Local Open Scope Z_scope.

(** ** Python values *)

(** A saved-track dictionary, as yielded by [get_all_saved_tracks] (minus its
    ['type'] tag) and as read back from the snapshot by [transfer_tracks]. *)
Record track := Track {
  track_id : string;
  track_name : string;
  track_artists : string;
  track_album : string;
  track_image : option string;
  track_added_at : string
}.

(** What the Spotify web API returns for one saved item: ['added_at'] and
    ['track'], which is [None] for an unavailable track. *)
Record api_album := ApiAlbum {
  album_name : string;
  album_images : list string          (* the ['url'] of every image *)
}.

Record api_track := ApiTrack {
  api_id : string;
  api_name : string;
  api_artists : list string;          (* the ['name'] of every artist *)
  api_album_of : api_album
}.

Record api_item := ApiItem {
  item_track : option api_track;
  item_added_at : string
}.

(** The value stored under the [Retry-After] header, seen through [int()]:
    absent, a string that [int()] parses, or one on which it raises. *)
Inductive header :=
| HAbsent
| HInt (n : Z)
| HBad (raw : string).

(** Python exceptions that can occur in the two generators.  An exception
    raised by a library carries the text [str(e)] gives for it. *)
Inductive exn :=
| SpotifyException (http_status : Z) (headers : header) (text : string)
| RequestException (text : string)
| ValueError (text : string)
| OverflowError (text : string)
| TypeError (text : string)
| ZeroDivisionError.

Definition str (e : exn) : string :=
  match e with
  | SpotifyException _ _ text => text
  | RequestException text => text
  | ValueError text => text
  | OverflowError text => text
  | TypeError text => text
  | ZeroDivisionError => "division by zero"
  end.

(** The dictionaries the generators yield, one constructor per shape. *)
Inductive event :=
| ERateLimit (retry_after : Z)
| ETotal (total : Z)
| ETrack (t : track)
| EFetched (fetched total : Z)
| EProgress (transferred total percent : Z) (current_track : string)
| EBatchProgress (transferred total percent : Z)
| EError (message : string) (track : string)
| EBatchError (message : string) (batch : Z)
| EComplete (transferred total : Z).

(** The actions a run is observed by, in program order: what it yields, its
    sleeps (in milliseconds), its HTTP calls, and every evaluation of the
    true division [a / b]. *)
Inductive action :=
| Yield (e : event)
| Sleep (ms : Z)
| GetSavedTracks (limit offset : Z)
| PutTrack (authorization : string) (ids : list string)
| AddTracks (ids : list string)
| Divide (a b : Z).

(** ** The effect monad *)

Inductive result (A : Type) :=
| Ok (a : A)
| Raise (e : exn).
Arguments Ok {A} a.
Arguments Raise {A} e.

Definition M (S A : Type) : Type := S → result A * S * list action.

Definition ret {S A} (a : A) : M S A := λ s, (Ok a, s, []).

Definition bind {S A B} (m : M S A) (k : A → M S B) : M S B :=
  λ s, match m s with
       | (Ok a, s1, w1) =>
           match k a s1 with
           | (r, s2, w2) => (r, s2, w1 ++ w2)
           end
       | (Raise e, s1, w1) => (Raise e, s1, w1)
       end.

Declare Scope py_scope.
Delimit Scope py_scope with py.
Notation "'let*' x := m 'in' k" := (bind m (λ x, k))
  (at level 10, x name, m at level 100, k at level 200) : py_scope.
Notation "m >> k" := (bind m (λ _, k))
  (at level 90, right associativity) : py_scope.
Local Open Scope py_scope.

Definition raise {S A} (e : exn) : M S A := λ s, (Raise e, s, []).
Definition tell {S} (a : action) : M S unit := λ s, (Ok tt, s, [a]).
Definition get {S} : M S S := λ s, (Ok s, s, []).
Definition modify {S} (f : S → S) : M S unit := λ s, (Ok tt, f s, []).

(** [try: body except Exception as e: handler e] *)
Definition try_except {S A} (body : M S A) (handler : exn → M S A) : M S A :=
  λ s, match body s with
       | (Ok a, s1, w1) => (Ok a, s1, w1)
       | (Raise e, s1, w1) =>
           match handler e s1 with
           | (r, s2, w2) => (r, s2, w1 ++ w2)
           end
       end.

(** [for x in xs: body x] *)
Fixpoint for_each {S A} (xs : list A) (body : A → M S unit) : M S unit :=
  match xs with
  | [] => ret tt
  | x :: xs' => body x >> for_each xs' body
  end.

Definition yield {S} (e : event) : M S unit := tell (Yield e).

(** The largest whole number of seconds CPython converts to its 64-bit count
    of nanoseconds: [(2^63 - 1) // 10^9]. *)
Definition max_sleep_seconds : Z := 9223372036.

(** [time.sleep(secs)] for an integer number of seconds.  CPython first
    converts the argument to nanoseconds and raises [OverflowError] when the
    product leaves the 64-bit range, to either side (with this text up to
    version 3.12); it then raises [ValueError] on a negative argument. *)
Definition sleep_seconds {S} (secs : Z) : M S unit :=
  if (secs <? - max_sleep_seconds) || (max_sleep_seconds <? secs) then
    raise (OverflowError "timestamp too large to convert to C _PyTime_t")
  else if secs <? 0 then raise (ValueError "sleep length must be non-negative")
  else tell (Sleep (1000 * secs)).

(** [time.sleep] of a positive literal such as [0.15]. *)
Definition sleep_ms {S} (ms : Z) : M S unit := tell (Sleep ms).

(** [int(headers.get('Retry-After', default))] *)
Definition int_retry_after {S} (h : header) (default : Z) : M S Z :=
  match h with
  | HAbsent => ret default
  | HInt n => ret n
  | HBad raw =>
      raise (ValueError ("invalid literal for int() with base 10: '" +:+ raw +:+ "'"))
  end.

(** ** Python floats: [int((transferred / total) * 100)] *)

(** Ints are converted to floats exactly as long as they are below [2^53],
    which every list length is. *)

(** Python's [float] is IEEE 754 binary64. *)
Definition float_of_int (z : Z) : spec_float := binary_normalize 53 1024 z 0 false.
Definition float_div : spec_float → spec_float → spec_float := SFdiv 53 1024.
Definition float_mul : spec_float → spec_float → spec_float := SFmul 53 1024.

(** [int(x)] on a float truncates towards zero and raises on [nan]/[inf]. *)
Definition int_of_float {S} (x : spec_float) : M S Z :=
  match x with
  | S754_zero _ => ret 0
  | S754_finite s m e =>
      ret (cond_Zopp s (if 0 <=? e then Z.pos m * 2 ^ e else Z.pos m / 2 ^ (- e)))
  | S754_infinity _ => raise (OverflowError "cannot convert float infinity to integer")
  | S754_nan => raise (ValueError "cannot convert float NaN to integer")
  end.

(** [transferred / total]: true division of two ints. *)
Definition true_div {S} (a b : Z) : M S spec_float :=
  tell (Divide a b) >>
  if b =? 0 then raise ZeroDivisionError
  else ret (float_div (float_of_int a) (float_of_int b)).

(** [int((transferred / total) * 100)] *)
Definition percent {S} (transferred total : Z) : M S Z :=
  let* q := true_div transferred total in
  int_of_float (float_mul q (float_of_int 100)).

(** ** [sorted(tracks, key=...)] on string keys *)

(** Python's [sorted] is a stable sort that compares keys with [<] only.
    Insertion from the right, placing an element in front of the first one
    whose key is not strictly smaller, is such a sort; [py_sorted_unique]
    below shows that every stable sort returns this very list. *)
Fixpoint insert_by {A} (key : A → string) (x : A) (l : list A) : list A :=
  match l with
  | [] => [x]
  | y :: l' =>
      if String.ltb (key y) (key x) then y :: insert_by key x l'
      else x :: y :: l'
  end.

Fixpoint py_sorted {A} (key : A → string) (l : list A) : list A :=
  match l with
  | [] => []
  | x :: l' => insert_by key x (py_sorted key l')
  end.

(** ** The remote API *)

(** What [requests.put] hands back: a response for every HTTP status (it does
    not raise on 4xx/5xx), or an exception when no response was obtained. *)
Record response := Response {
  status_code : Z;
  retry_after_header : header
}.

Inductive put_outcome :=
| PutReturns (r : response)
| PutRaises (text : string).

(** What a [spotipy] client call does when it does not return: it raises
    [SpotifyException] for an HTTP error, or lets an exception of [requests]
    through. *)
Inductive api_error :=
| HttpError (http_status : Z) (headers : header) (text : string)
| NetworkError (text : string).

Definition exn_of_api_error (e : api_error) : exn :=
  match e with
  | HttpError st h text => SpotifyException st h text
  | NetworkError text => RequestException text
  end.

Inductive add_outcome :=
| AddReturns
| AddRaises (e : api_error).

(** The page [current_user_saved_tracks] returns: [results['total']] and
    [results['items']]. *)
Record page := Page {
  page_total : Z;
  page_items : list api_item
}.

Inductive fetch_outcome :=
| FetchReturns (p : page)
| FetchRaises (e : api_error).

(** ** [transfer_tracks] *)

(** The mutable state of a run: the list object the caller passed as
    [tracks], the local [transferred], and the number of calls made so far to
    the destination API (the index of the next oracle answer). *)
Record tstate := TState {
  tracks_obj : list track;
  transferred : Z;
  calls : nat
}.

Definition len_tracks : M tstate Z :=
  let* s := get in ret (Z.of_nat (length (tracks_obj s))).

(** [sorted(tracks, key=lambda t: t['added_at'])]: a new list, [tracks] is
    only read. *)
Definition sorted_tracks : M tstate (list track) :=
  let* s := get in ret (py_sorted track_added_at (tracks_obj s)).

(** [tracks[i:i + n]] for [0 <= i]: a new list, [tracks] is only read. *)
Definition slice_tracks (i n : Z) : M tstate (list track) :=
  let* s := get in ret (take (Z.to_nat n) (drop (Z.to_nat i) (tracks_obj s))).

Definition add_transferred (n : Z) : M tstate unit :=
  modify (λ s, TState (tracks_obj s) (transferred s + n) (calls s)).

Definition get_transferred : M tstate Z :=
  let* s := get in ret (transferred s).

Definition next_call : M tstate nat :=
  let* s := get in
  modify (λ s, TState (tracks_obj s) (transferred s) (S (calls s))) >>
  ret (calls s).

(** [range(0, stop, step)] for a positive [step]. *)
Definition py_range (stop step : Z) : list Z :=
  map (λ k, step * Z.of_nat k) (seq 0 (Z.to_nat ((stop + step - 1) / step))).

Section TransferTracks.
(** The answers of the destination API, by call number. *)
Variable requests_put : nat → put_outcome.
Variable current_user_saved_tracks_add : nat → add_outcome.
Variable access_token : string.

(** [requests.put(".../v1/me/tracks", headers=headers, json={"ids": [track['id']]})] *)
Definition put_track (t : track) : M tstate response :=
  let* n := next_call in
  tell (PutTrack ("Bearer " +:+ access_token) [track_id t]) >>
  match requests_put n with
  | PutReturns r => ret r
  | PutRaises text => raise (RequestException text)
  end.

(** [sp_client.current_user_saved_tracks_add(tracks=track_ids)] *)
Definition add_tracks (ids : list string) : M tstate unit :=
  let* n := next_call in
  tell (AddTracks ids) >>
  match current_user_saved_tracks_add n with
  | AddReturns => ret tt
  | AddRaises e => raise (exn_of_api_error e)
  end.

(** Lines 113-123: count the record and report every tenth and the last. *)
Definition count_and_report (total : Z) (t : track) : M tstate unit :=
  add_transferred 1 >>
  let* transferred := get_transferred in
  if (transferred mod 10 =? 0) || (transferred =? total) then
    let* pct := percent transferred total in
    yield (EProgress transferred total pct (track_name t))
  else ret tt.

(** The body of the [try] of the one-by-one loop (lines 90-123). *)
Definition ordered_try (total : Z) (t : track) : M tstate unit :=
  let* response := put_track t in
  (if status_code response =? 429 then
     let* retry_after := int_retry_after (retry_after_header response) 30 in
     yield (ERateLimit retry_after) >>
     sleep_seconds retry_after >>
     let* response := put_track t in
     ret tt
   else ret tt) >>
  count_and_report total t.

(** One iteration of the one-by-one loop (lines 88-130). *)
Definition ordered_item (total : Z) (t : track) : M tstate unit :=
  try_except (ordered_try total t)
             (λ e, yield (EError (str e) (track_name t))) >>
  sleep_ms 150.

(** The body of the [try] of the batch loop (lines 138-146). *)
Definition batch_try (total : Z) (batch : list track) : M tstate unit :=
  let track_ids := map track_id batch in
  add_tracks track_ids >>
  add_transferred (Z.of_nat (length batch)) >>
  let* transferred := get_transferred in
  let* pct := percent transferred total in
  yield (EBatchProgress transferred total pct).

(** One iteration of the batch loop (lines 135-149). *)
Definition batch_item (total : Z) (i : Z) : M tstate unit :=
  let batch_size := 50 in
  let* batch := slice_tracks i batch_size in
  try_except (batch_try total batch)
             (λ e, yield (EBatchError (str e) i)) >>
  sleep_ms 500.

Definition transfer_tracks (preserve_order : bool) : M tstate unit :=
  let* total := len_tracks in
  (if preserve_order then
     let* tracks_sorted := sorted_tracks in
     for_each tracks_sorted (ordered_item total)
   else
     let batch_size := 50 in
     for_each (py_range total batch_size) (batch_item total)) >>
  let* transferred := get_transferred in
  yield (EComplete transferred total).

(** Consuming the generator [transfer_tracks(sp_client, tracks,
    access_token, preserve_order)] to its end, from [transferred = 0] and
    with no call made yet. *)
Definition run_transfer (tracks : list track) (preserve_order : bool)
  : result unit * tstate * list action :=
  transfer_tracks preserve_order (TState tracks 0 0).
End TransferTracks.

(** The three components of a finished run. *)
Definition outcome {A S} (run : result A * S * list action) : result A := run.1.1.
Definition final_state {A S} (run : result A * S * list action) : S := run.1.2.
Definition trace {A S} (run : result A * S * list action) : list action := run.2.

(** Projections of a trace. *)
Definition events (w : list action) : list event :=
  omap (λ a, match a with Yield e => Some e | _ => None end) w.

Definition put_calls (w : list action) : list (string * list string) :=
  omap (λ a, match a with PutTrack auth ids => Some (auth, ids) | _ => None end) w.

Definition put_ids (w : list action) : list string :=
  mjoin (put_calls w).*2.

Definition is_progress (e : event) : bool :=
  match e with EProgress _ _ _ _ => true | _ => false end.

(** ** [get_all_saved_tracks] *)

(** The locals of the generator and the number of page requests made so far
    (the index of the next oracle answer). *)
Record estate := EState {
  offset : Z;
  total : option Z;
  fetches : nat
}.

Definition next_fetch : M estate nat :=
  let* s := get in
  modify (λ s, EState (offset s) (total s) (S (fetches s))) >>
  ret (fetches s).

Definition get_offset : M estate Z :=
  let* s := get in ret (offset s).

Definition add_offset (n : Z) : M estate unit :=
  modify (λ s, EState (offset s + n) (total s) (fetches s)).

Definition set_total (n : Z) : M estate unit :=
  modify (λ s, EState (offset s) (Some n) (fetches s)).

(** Reading [total] where an int is needed, as [min(offset, total)] does. *)
Definition get_total : M estate Z :=
  let* s := get in
  match total s with
  | Some n => ret n
  | None => raise (TypeError "'<' not supported between instances of 'NoneType' and 'int'")
  end.

(** The dictionary of lines 46-54, for an item whose track is [t]. *)
Definition track_of_item (item : api_item) (t : api_track) : track :=
  {| track_id := api_id t;
     track_name := api_name t;
     track_artists := String.concat ", " (api_artists t);
     track_album := album_name (api_album_of t);
     track_image := head (album_images (api_album_of t));
     track_added_at := item_added_at item |}.

(** How an iteration of [while True] ends. *)
Inductive loop_exit :=
| Break
| OutOfFuel.

Section GetAllSavedTracks.
(** The answers of the source API, by call number. *)
Variable current_user_saved_tracks : nat → fetch_outcome.

(** [sp_client.current_user_saved_tracks(limit=limit, offset=offset)] *)
Definition fetch_page (limit offset : Z) : M estate page :=
  let* n := next_fetch in
  tell (GetSavedTracks limit offset) >>
  match current_user_saved_tracks n with
  | FetchReturns p => ret p
  | FetchRaises e => raise (exn_of_api_error e)
  end.

(** Lines 24-32: [Some results], or [None] when the handler ends in
    [continue]. *)
Definition try_fetch (limit : Z) : M estate (option page) :=
  let* offset := get_offset in
  try_except
    (let* results := fetch_page limit offset in ret (Some results))
    (λ e, match e with
          | SpotifyException http_status headers _ =>
              if http_status =? 429 then
                let* retry_after := int_retry_after headers 30 in
                yield (ERateLimit retry_after) >>
                sleep_seconds retry_after >>
                ret None
              else raise e
          | _ => raise e
          end).

(** Lines 42-54: the body of [for item in items]. *)
Definition item_body (item : api_item) : M estate unit :=
  match item_track item with
  | None => ret tt
  | Some t => yield (ETrack (track_of_item item t))
  end.

(** The [while True] loop, for at most [fuel] iterations. *)
Fixpoint saved_tracks_loop (fuel : nat) : M estate loop_exit :=
  match fuel with
  | O => ret OutOfFuel
  | S fuel' =>
      let limit := 50 in
      let* fetched := try_fetch limit in
      match fetched with
      | None => saved_tracks_loop fuel'
      | Some results =>
          let* s := get in
          (match total s with
           | None =>
               set_total (page_total results) >>
               yield (ETotal (page_total results))
           | Some _ => ret tt
           end) >>
          let items := page_items results in
          match items with
          | [] => ret Break
          | _ :: _ =>
              for_each items item_body >>
              add_offset limit >>
              let* offset := get_offset in
              let* total := get_total in
              yield (EFetched (Z.min offset total) total) >>
              sleep_ms 300 >>
              saved_tracks_loop fuel'
          end
      end
  end.

(** Consuming [get_all_saved_tracks(sp_client)] for at most [fuel]
    iterations of its loop, from [offset = 0] and [total = None]. *)
Definition get_all_saved_tracks (fuel : nat)
  : result loop_exit * estate * list action :=
  saved_tracks_loop fuel (EState 0 None 0).
End GetAllSavedTracks.

(** ** Vocabulary of the statements *)

(** Ascending by [key]. *)
Definition key_le {A} (key : A → string) (a b : A) : Prop :=
  String.leb (key a) (key b) = true.

(** [int(headers.get('Retry-After', 30))], when it does not raise. *)
Definition retry_after_value (h : header) : option Z :=
  match h with
  | HAbsent => Some 30
  | HInt n => Some n
  | HBad _ => None
  end.

(** The whole numbers of seconds [time.sleep] accepts: from 0 to
    [max_sleep_seconds]. *)
Definition sleepable (n : Z) : bool := (0 <=? n) && (n <=? max_sleep_seconds).

(** What [time.sleep(n)] raises on a whole number it does not accept. *)
Definition sleep_error (n : Z) : exn :=
  if (n <? - max_sleep_seconds) || (max_sleep_seconds <? n)
  then OverflowError "timestamp too large to convert to C _PyTime_t"
  else ValueError "sleep length must be non-negative".

(** Every division evaluated in the trace has a numerator above [lo] and the
    denominator [d]. *)
Definition divides_by (lo d : Z) (w : list action) : Prop :=
  Forall (λ a, match a with Divide x y => lo < x ∧ y = d | _ => True end) w.

(** An insertion call that carries the bearer token and the id of one
    record. *)
Definition single_item_call (access_token : string) (c : string * list string)
  : Prop :=
  c.1 = "Bearer " +:+ access_token ∧ length c.2 = 1%nat.

(** [calls] is [ids] with some of its elements issued a second time, right
    after the first. *)
Inductive with_retries : list string → list string → Prop :=
| retries_nil : with_retries [] []
| retries_once x ids calls :
    with_retries ids calls → with_retries (x :: ids) (x :: calls)
| retries_twice x ids calls :
    with_retries ids calls → with_retries (x :: ids) (x :: x :: calls).

(** The value of [int((transferred / total) * 100)], or what it raises. *)
Definition percent_value (transferred total : Z) : result Z :=
  outcome (percent transferred total tt).

(** What lines 113-123 report once [transferred] has become [tr]. *)
Definition report (total : Z) (t : track) (tr : Z) : result unit * list action :=
  if (tr mod 10 =? 0) || (tr =? total) then
    match percent_value tr total with
    | Ok pct =>
        (Ok tt, [Divide tr total; Yield (EProgress tr total pct (track_name t))])
    | Raise e => (Raise e, [Divide tr total])
    end
  else (Ok tt, []).

(** The state after [k] more calls to the destination. *)
Definition after_calls (k : nat) (s : tstate) : tstate :=
  TState (tracks_obj s) (transferred s) (k + calls s).

(** The rest of an iteration once the insertion calls, traced as [w0], have
    handed back a response: the record is counted, reported as [report]
    says, and an exception of the report is yielded as an error. *)
Definition counted (total : Z) (t : track) (s : tstate) (w0 : list action)
  : result unit * tstate * list action :=
  let tr := transferred s + 1 in
  (Ok tt,
   TState (tracks_obj s) tr (calls s),
   w0 ++ (report total t tr).2
      ++ match (report total t tr).1 with
         | Ok _ => []
         | Raise e => [Yield (EError (str e) (track_name t))]
         end
      ++ [Sleep 150]).

(** Every call returns a response, and a 429 comes with a Retry-After that
    can be slept (or none). *)
Definition answers_every_call (requests_put : nat → put_outcome) : Prop :=
  ∀ n, ∃ r,
    requests_put n = PutReturns r ∧
    (status_code r = 429 →
     ∃ ra, retry_after_value (retry_after_header r) = Some ra ∧
           sleepable ra = true).

Definition progress_events (w : list action) : list event :=
  filter is_progress (events w).

(** The progress events of a loop over [l] that counts every record,
    starting from [tr] records counted. *)
Fixpoint expected_progress (total tr : Z) (l : list track) : list event :=
  match l with
  | [] => []
  | t :: l' =>
      progress_events (report total t (tr + 1)).2
      ++ expected_progress total (tr + 1) l'
  end.

(** The records a page contributes: its items with a track, normalised. *)
Definition tracks_of_items (items : list api_item) : list track :=
  omap (λ item, track_of_item item <$> item_track item) items.

(** The state after one more page request. *)
Definition after_fetch (s : estate) : estate :=
  EState (offset s) (total s) (S (fetches s)).

(** A run with [w0] in front of its trace. *)
Definition prepend {A S} (w0 : list action) (run : result A * S * list action)
  : result A * S * list action :=
  (run.1.1, run.1.2, w0 ++ run.2).

(** What the specification says an iteration does, as a function of the
    answer [a] it receives at offset [off], [T] being the total if a page has
    been received before. *)
Definition expected_segment (off : Z) (T : option Z) (a : fetch_outcome)
  : list action :=
  GetSavedTracks 50 off ::
  match a with
  | FetchReturns (Page tot items) =>
      match T with None => [Yield (ETotal tot)] | Some _ => [] end ++
      match items with
      | [] => []
      | _ :: _ =>
          map (λ t, Yield (ETrack t)) (tracks_of_items items) ++
          [Yield (EFetched (Z.min (off + 50) (default tot T)) (default tot T));
           Sleep 300]
      end
  | FetchRaises (HttpError st h _) =>
      if st =? 429 then
        match retry_after_value h with
        | Some n =>
            Yield (ERateLimit n) :: if sleepable n then [Sleep (1000 * n)] else []
        | None => []
        end
      else []
  | FetchRaises (NetworkError _) => []
  end.

(** The offset and the total after an iteration that received [a]. *)
Definition next_offset (off : Z) (a : fetch_outcome) : Z :=
  match a with
  | FetchReturns (Page _ (_ :: _)) => off + 50
  | _ => off
  end.

Definition next_total (T : option Z) (a : fetch_outcome) : option Z :=
  match a with
  | FetchReturns (Page tot _) => Some (default tot T)
  | _ => T
  end.

Fixpoint expected_trace (off : Z) (T : option Z) (answers : list fetch_outcome)
  : list action :=
  match answers with
  | [] => []
  | a :: rest =>
      expected_segment off T a ++
      expected_trace (next_offset off a) (next_total T a) rest
  end.

(** How an answer ends the generator, if it does: an empty page ends the
    loop; a failure that is not a rate limit is raised; and so is what
    [int] or [time.sleep] raise on the Retry-After of a rate limit that is
    not a whole number of seconds, or not one that can be slept. *)
Definition verdict (a : fetch_outcome) : option (result loop_exit) :=
  match a with
  | FetchReturns (Page _ []) => Some (Ok Break)
  | FetchReturns (Page _ (_ :: _)) => None
  | FetchRaises (HttpError st h text) =>
      if st =? 429 then
        match h with
        | HBad raw =>
            Some (Raise (ValueError
              ("invalid literal for int() with base 10: '" +:+ raw +:+ "'")))
        | _ =>
            let n := default 0 (retry_after_value h) in
            if sleepable n then None else Some (Raise (sleep_error n))
        end
      else Some (Raise (SpotifyException st h text))
  | FetchRaises (NetworkError text) => Some (Raise (RequestException text))
  end.

(** The answers to the calls number [from], ..., [from + n - 1]. *)
Definition answers_from (oracle : nat → fetch_outcome) (from n : nat)
  : list fetch_outcome :=
  map oracle (seq from n).

(** Projections of the trace of an extraction. *)
Definition requests (w : list action) : list (Z * Z) :=
  omap (λ a, match a with GetSavedTracks l o => Some (l, o) | _ => None end) w.

Definition fetched_events (w : list action) : list (Z * Z) :=
  omap (λ a, match a with Yield (EFetched f t) => Some (f, t) | _ => None end) w.

Definition total_events (w : list action) : list Z :=
  omap (λ a, match a with Yield (ETotal t) => Some t | _ => None end) w.

Definition track_events (w : list action) : list track :=
  omap (λ a, match a with Yield (ETrack t) => Some t | _ => None end) w.

(** The offsets at which the pages are requested, given the answers: the
    first at [off], each next one 50 further after a page with items. *)
Fixpoint offsets (off : Z) (answers : list fetch_outcome) : list Z :=
  match answers with
  | [] => []
  | a :: rest => off :: offsets (next_offset off a) rest
  end.

(** The [fetched] and [total] of the progress events, given the answers: one
    per page with items, [min(offset, total)] after the offset moved on. *)
Fixpoint expected_fetched (off : Z) (T : option Z) (answers : list fetch_outcome)
  : list (Z * Z) :=
  match answers with
  | [] => []
  | a :: rest =>
      match a with
      | FetchReturns (Page tot (_ :: _)) =>
          [(Z.min (off + 50) (default tot T), default tot T)]
      | _ => []
      end ++ expected_fetched (next_offset off a) (next_total T a) rest
  end.

(** The pages among the answers. *)
Definition pages (answers : list fetch_outcome) : list page :=
  omap (λ a, match a with FetchReturns p => Some p | _ => None end) answers.

Definition offset_after (off : Z) (answers : list fetch_outcome) : Z :=
  fold_left next_offset answers off.

Definition total_after (T : option Z) (answers : list fetch_outcome) : option Z :=
  fold_left next_total answers T.

(** ** [auth.py] *)

(** Exceptions in the web application: those the two generators raise
    ([LibraryError]), those of the OAuth exchange, and Python's own when a
    key or a file is missing.  [BadValue] stands for the [TypeError] or
    [AttributeError] of an operation applied to a value of the wrong
    kind. *)
Inductive app_exn :=
| LibraryError (e : exn)
| OauthError (text : string)
| KeyError (key : string)
| FileNotFoundError (path : string)
| JSONDecodeError (text : string)
| BadValue (text : string).

(** [str(e)]; a [KeyError] prints the [repr] of its key. *)
Definition app_str (e : app_exn) : string :=
  match e with
  | LibraryError e => str e
  | OauthError text => text
  | KeyError key => "'" +:+ key +:+ "'"
  | FileNotFoundError path =>
      "[Errno 2] No such file or directory: '" +:+ path +:+ "'"
  | JSONDecodeError text => text
  | BadValue text => text
  end.

Definition SOURCE_SCOPES : string := "user-library-read".
Definition DEST_SCOPES : string := "user-library-read user-library-modify".

(** The arguments [SpotifyOAuth] is created with. *)
Record oauth_manager := SpotifyOAuth {
  client_id : option string;
  client_secret : option string;
  redirect_uri : option string;
  scope : string;
  cache_path : string;
  show_dialog : bool
}.

Definition get_oauth_manager (environ : gmap string string)
    (account_type : string) : oauth_manager :=
  let scopes :=
    if String.eqb account_type "source" then SOURCE_SCOPES else DEST_SCOPES in
  let cache_path := ".cache-" +:+ account_type in
  SpotifyOAuth (environ !! "SPOTIPY_CLIENT_ID")
               (environ !! "SPOTIPY_CLIENT_SECRET")
               (environ !! "SPOTIPY_REDIRECT_URI")
               scopes cache_path true.

(** A user object of the web API, key by key: a key can be missing, hold
    [null], or hold a value. *)
Inductive jfield (A : Type) :=
| Missing
| Null
| Value (a : A).
Arguments Missing {A}.
Arguments Null {A}.
Arguments Value {A} a.

Record api_user := ApiUser {
  user_display_name : jfield string;
  user_id : jfield string;
  user_images : jfield (list (jfield string))   (* the ['url'] of each image *)
}.

(** The dictionary [get_user_info] returns. *)
Record user_info := UserInfo {
  info_display_name : option string;
  info_id : option string;
  info_image : option string
}.

(** [d[key]] for a key that is missing, [null], or holds a value. *)
Definition subscript {A} (key : string) (field : jfield A) : app_exn + option A :=
  match field with
  | Missing => inl (KeyError key)
  | Null => inr None
  | Value a => inr (Some a)
  end.

(** Lines 90-94 of [get_user_info], on the answer of [current_user()]. *)
Definition user_info_of (user : api_user) : app_exn + user_info :=
  match subscript "id" (user_id user) with
  | inl e => inl e
  | inr id =>
      let display_name :=
        match user_display_name user with
        | Missing => id
        | Null => None
        | Value name => Some name
        end in
      match user_images user with
      | Value (image :: _) =>
          match subscript "url" image with
          | inl e => inl e
          | inr url => inr (UserInfo display_name id url)
          end
      | Value [] | Null | Missing => inr (UserInfo display_name id None)
      end
  end.

(** [len(s)] for a [str] held as its UTF-8 bytes: Python counts characters,
    that is the bytes that do not continue one ([10xxxxxx]).  A value that is
    not valid UTF-8 is outside of what this counts. *)
Definition is_continuation_byte (c : ascii) : bool :=
  match c with Ascii _ _ _ _ _ _ b6 b7 => b7 && negb b6 end.

Fixpoint str_len (s : string) : nat :=
  match s with
  | EmptyString => 0
  | String c rest =>
      ((if is_continuation_byte c then 0 else 1) + str_len rest)%nat
  end.

(** [is_configured()] *)
Definition is_configured (environ : gmap string string) : bool :=
  let client_id := default "" (environ !! "SPOTIPY_CLIENT_ID") in
  let client_secret := default "" (environ !! "SPOTIPY_CLIENT_SECRET") in
  negb (String.eqb client_id "") && negb (String.eqb client_secret "")
  && (10 <? Z.of_nat (str_len client_id))
  && (10 <? Z.of_nat (str_len client_secret)).

(** ** [app.py] *)

(** What the session holds under a key. *)
Inductive svalue :=
| SStr (s : string)
| SToken (token_info : gmap string string)
| SUser (u : user_info)
| STracks (l : list track).

(** Python's truth value of [session.get(key)]. *)
Definition truthy (v : option svalue) : bool :=
  match v with
  | None => false
  | Some (SStr s) => negb (String.eqb s "")
  | Some (SToken t) => negb (bool_decide (t = ∅))
  | Some (SUser _) => true
  | Some (STracks l) => negb (bool_decide (l = []))
  end.

Definition py_len (v : svalue) : Z :=
  match v with
  | SStr s => Z.of_nat (str_len s)
  | SToken t => Z.of_nat (size t)
  | SUser _ => 3
  | STracks l => Z.of_nat (length l)
  end.

(** A file, as far as the routes are modelled on it: the JSON of a list of
    track dictionaries, as [fetch_stream] dumps it and [json.load] gives it
    back, or text that is not JSON.  JSON of another shape is not covered:
    what is stated of a route that reads the cache is stated for a cache of
    one of these two kinds. *)
Inductive file :=
| JsonTracks (l : list track)
| Text (content : string).

(** The session of the browser, the files of the working directory and the
    environment of the process. *)
Record world := World {
  session : gmap string svalue;
  files : gmap string file;
  environ : gmap string string
}.

(** A server-sent message [data: <json>], by the value it serialises. *)
Inductive payload :=
| Update (e : event)
| FetchComplete (count : Z).

(** How a streamed body ends: the generator returns, raises, or is still
    running when the fuel of [get_all_saved_tracks] is spent. *)
Inductive stream_end :=
| Finished
| Failed (e : app_exn)
| Unfinished.

(** A value passed to a template. *)
Inductive cvalue :=
| CBool (b : bool)
| CInt (n : Z)
| CStr (s : string)
| CSession (v : option svalue)
| CTracks (l : list track).

(** What a route answers; [ServerError] is the answer to an exception that
    no handler of the route catches. *)
Inductive flask_response :=
| Render (template : string) (context : list (string * cvalue))
| Redirect (endpoint : string)
| RedirectUrl (url : string)
| Plain (body : string) (status : Z)
| EventStream (messages : list payload) (ending : stream_end)
| ServerError (e : app_exn).

(** [s.split(':')[0]] *)
Fixpoint before_colon (s : string) : string :=
  match s with
  | EmptyString => EmptyString
  | String c rest =>
      if Ascii.eqb c ":" then EmptyString else String c (before_colon rest)
  end.

(** [s.startswith(p)] *)
Fixpoint startswith (s p : string) : bool :=
  match p with
  | EmptyString => true
  | String a p' =>
      match s with
      | EmptyString => false
      | String b s' => Ascii.eqb a b && startswith s' p'
      end
  end.

(** [get_spotify_client(token_info)]: the client is its bearer token. *)
Definition get_spotify_client (token_info : svalue) : app_exn + string :=
  match token_info with
  | SToken t =>
      match t !! "access_token" with
      | Some token => inr token
      | None => inl (KeyError "access_token")
      end
  | SUser _ => inl (KeyError "access_token")
  | SStr _ => inl (BadValue "string indices must be integers")
  | STracks _ => inl (BadValue "list indices must be integers or slices, not str")
  end.

(** [open('.tracks_cache.json')] and [json.load]. *)
Definition load_tracks (fs : gmap string file) : app_exn + list track :=
  match fs !! ".tracks_cache.json" with
  | None => inl (FileNotFoundError ".tracks_cache.json")
  | Some (JsonTracks l) => inr l
  | Some (Text _) => inl (JSONDecodeError "Expecting value")
  end.

(** [index()] *)
Definition index (w : world) : flask_response * world :=
  let configured := is_configured (environ w) in
  let source_user := session w !! "source_user" in
  let dest_user := session w !! "dest_user" in
  let tracks := default (STracks []) (session w !! "tracks") in
  (Render "index.html"
     [("configured", CBool configured); ("source_user", CSession source_user);
      ("dest_user", CSession dest_user); ("tracks_count", CInt (py_len tracks))],
   w).

(** [setup()] *)
Definition setup (w : world) : flask_response * world :=
  (Render "setup.html" [], w).

Section SaveCredentials.
(** [str.strip], and [load_dotenv(override=True)] as a function of the
    files and the environment it finds. *)
Variable strip : string → string.
Variable load_dotenv : gmap string file → gmap string string → gmap string string.

(** [save_credentials()], for the form fields and the value of
    [secrets.token_hex(32)]. *)
Definition save_credentials (form_client_id form_client_secret : option string)
    (secret : string) (w : world) : flask_response * world :=
  let client_id := strip (default "" form_client_id) in
  let client_secret := strip (default "" form_client_secret) in
  if String.eqb client_id "" || String.eqb client_secret "" then
    (Redirect "setup", w)
  else
    let env_content :=
      "SPOTIPY_CLIENT_ID=" +:+ client_id +:+ "
SPOTIPY_CLIENT_SECRET=" +:+ client_secret +:+ "
SPOTIPY_REDIRECT_URI=http://127.0.0.1:5000/callback
FLASK_SECRET_KEY=" +:+ secret +:+ "
" in
    let fs := <[".env" := Text env_content]> (files w) in
    (Redirect "index", World (session w) fs (load_dotenv fs (environ w))).
End SaveCredentials.

(** [login(account_type)], for the value [nonce] of [secrets.token_hex(16)]
    and the answer of [oauth.get_authorize_url(state=state)]. *)
Definition login (get_authorize_url : oauth_manager → string → app_exn + string)
    (account_type nonce : string) (w : world) : flask_response * world :=
  if negb (String.eqb account_type "source" || String.eqb account_type "dest") then
    (Redirect "index", w)
  else
    let state := account_type +:+ ":" +:+ nonce in
    let w' := World (<["oauth_state" := SStr state]> (session w)) (files w) (environ w) in
    match get_authorize_url (get_oauth_manager (environ w) account_type) state with
    | inr auth_url => (RedirectUrl auth_url, w')
    | inl e => (ServerError e, w')
    end.

(** [callback()], for the query parameters and the answers of the calls it
    makes: [oauth.get_access_token(code, as_dict=True)], which may also write
    its token cache, and [sp_client.current_user()]. *)
Definition callback
    (get_access_token :
       oauth_manager → option string → gmap string file →
       (app_exn + gmap string string) * gmap string file)
    (current_user : string → app_exn + api_user)
    (code state error : option string) (w : world) : flask_response * world :=
  let invalid := (Render "error.html" [("error", CStr "Invalid state parameter")], w) in
  if negb (String.eqb (default "" error) "") then
    (Render "error.html" [("error", CStr (default "" error))], w)
  else if String.eqb (default "" state) "" then invalid
  else
    let state := default "" state in
    match default (SStr "") (session w !! "oauth_state") with
    | SStr expected_state =>
        if negb (startswith state (before_colon expected_state)) then invalid
        else
          let account_type := before_colon state in
          let '(exchanged, fs) :=
            get_access_token (get_oauth_manager (environ w) account_type) code
                             (files w) in
          let failed (e : app_exn) :=
            (Render "error.html" [("error", CStr (app_str e))],
             World (session w) fs (environ w)) in
          match exchanged with
          | inl e => failed e
          | inr token_info =>
              match get_spotify_client (SToken token_info) with
              | inl e => failed e
              | inr sp_client =>
                  match current_user sp_client with
                  | inl e => failed e
                  | inr user =>
                      match user_info_of user with
                      | inl e => failed e
                      | inr user_info =>
                          let session1 :=
                            <[account_type +:+ "_user" := SUser user_info]>
                              (<[account_type +:+ "_token" := SToken token_info]>
                                 (session w)) in
                          if String.eqb account_type "source" then
                            (Redirect "fetch_tracks",
                             World (delete "tracks" session1) fs (environ w))
                          else
                            (Redirect "transfer", World session1 fs (environ w))
                      end
                  end
              end
          end
    | _ => (ServerError (BadValue "object has no attribute 'split'"), w)
    end.

(** [fetch_tracks()] *)
Definition fetch_tracks (w : world) : flask_response * world :=
  let source_user := session w !! "source_user" in
  if negb (truthy source_user) then (Redirect "index", w)
  else (Render "fetch.html" [("source_user", CSession source_user)], w).

(** [fetch_stream()], consumed to its end, for the answers of the source API
    and the fuel of the extraction. *)
Definition fetch_stream (current_user_saved_tracks : nat → fetch_outcome)
    (fuel : nat) (w : world) : flask_response * world :=
  let source_token := session w !! "source_token" in
  if negb (truthy source_token) then (Plain "No source token" 401, w)
  else
    match get_spotify_client (default (SStr "") source_token) with
    | inl e => (EventStream [] (Failed e), w)
    | inr sp_client =>
        let run := get_all_saved_tracks current_user_saved_tracks fuel in
        let updates := events (trace run) in
        let tracks := track_events (trace run) in
        match outcome run with
        | Ok Break =>
            (EventStream (map Update updates
                          ++ [FetchComplete (Z.of_nat (length tracks))])
                         Finished,
             World (session w)
                   (<[".tracks_cache.json" := JsonTracks tracks]> (files w))
                   (environ w))
        | Ok OutOfFuel => (EventStream (map Update updates) Unfinished, w)
        | Raise e => (EventStream (map Update updates) (Failed (LibraryError e)), w)
        end
    end.

(** [show_tracks()] *)
Definition show_tracks (w : world) : flask_response * world :=
  let source_user := session w !! "source_user" in
  if negb (truthy source_user) then (Redirect "index", w)
  else
    match load_tracks (files w) with
    | inl (FileNotFoundError _) => (Redirect "fetch_tracks", w)
    | inl e => (ServerError e, w)
    | inr tracks =>
        (Render "tracks.html"
           [("source_user", CSession source_user); ("tracks", CTracks tracks);
            ("tracks_count", CInt (Z.of_nat (length tracks)))],
         w)
    end.

(** [transfer()] *)
Definition transfer (w : world) : flask_response * world :=
  let source_user := session w !! "source_user" in
  let dest_user := session w !! "dest_user" in
  if negb (truthy source_user) then (Redirect "index", w)
  else if negb (truthy dest_user) then (Redirect "show_tracks", w)
  else
    match load_tracks (files w) with
    | inl (FileNotFoundError _) => (Redirect "fetch_tracks", w)
    | inl e => (ServerError e, w)
    | inr tracks =>
        (Render "transfer.html"
           [("source_user", CSession source_user); ("dest_user", CSession dest_user);
            ("tracks_count", CInt (Z.of_nat (length tracks)))],
         w)
    end.

(** [transfer_stream()], consumed to its end, for the answers of the
    destination API. *)
Definition transfer_stream (requests_put : nat → put_outcome)
    (current_user_saved_tracks_add : nat → add_outcome) (w : world)
  : flask_response * world :=
  let dest_token := session w !! "dest_token" in
  if negb (truthy dest_token) then (Plain "No destination token" 401, w)
  else
    match load_tracks (files w) with
    | inl (FileNotFoundError _) => (Plain "No tracks cached" 400, w)
    | inl e => (ServerError e, w)
    | inr tracks =>
        match get_spotify_client (default (SStr "") dest_token) with
        | inl e => (EventStream [] (Failed e), w)
        | inr access_token =>
            let run :=
              run_transfer requests_put current_user_saved_tracks_add
                           access_token tracks true in
            (EventStream (map Update (events (trace run)))
                         match outcome run with
                         | Ok _ => Finished
                         | Raise e => Failed (LibraryError e)
                         end,
             w)
        end
    end.

(** [reset()] *)
Definition reset (w : world) : flask_response * world :=
  (Redirect "index",
   World ∅
         (foldr delete (files w) [".cache-source"; ".cache-dest"; ".tracks_cache.json"])
         (environ w)).

(** ** Vocabulary of the further properties *)

(** The 150 ms pause that ends an iteration of the one-by-one loop. *)
Definition pauses (w : list action) : list Z :=
  omap (λ a, match a with
             | Sleep ms => if ms =? 150 then Some ms else None
             | _ => None
             end) w.

(** The [message] and [track] of the error events of the one-by-one loop. *)
Definition error_events (w : list action) : list (string * string) :=
  omap (λ a, match a with Yield (EError m t) => Some (m, t) | _ => None end) w.

(** The [transferred] and [total] of the completion events. *)
Definition complete_events (w : list action) : list (Z * Z) :=
  omap (λ a, match a with Yield (EComplete tr tot) => Some (tr, tot) | _ => None end) w.

(** The id lists of the bulk calls. *)
Definition add_calls (w : list action) : list (list string) :=
  omap (λ a, match a with AddTracks ids => Some ids | _ => None end) w.

(** The [message] and [batch] of the error events of the batch loop. *)
Definition batch_errors (w : list action) : list (string * Z) :=
  omap (λ a, match a with Yield (EBatchError m i) => Some (m, i) | _ => None end) w.

(** [tracks[i:i + 50]] as a value. *)
Definition slice50 (tracks : list track) (i : Z) : list track :=
  take (Z.to_nat 50) (drop (Z.to_nat i) tracks).

(** The records the batch loop has counted when the calls number [from],
    [from + 1], ... are made for the batches starting at [idxs]: those of
    the batches whose call returns. *)
Fixpoint batch_count (add : nat → add_outcome) (tracks : list track)
    (from : nat) (idxs : list Z) : Z :=
  match idxs with
  | [] => 0
  | i :: rest =>
      match add from with
      | AddReturns => Z.of_nat (length (slice50 tracks i))
      | AddRaises _ => 0
      end + batch_count add tracks (S from) rest
  end.

(** What an iteration of the one-by-one loop for the record [t] leaves in the
    trace: one or two calls for [t], at most two events, errors that name
    [t], and the 150 ms pause, once and at the end. *)
Definition record_segment (t : track) (seg : list action) : Prop :=
  last seg = Some (Sleep 150) ∧
  pauses seg = [150] ∧
  (put_ids seg = [track_id t] ∨ put_ids seg = [track_id t; track_id t]) ∧
  (length (events seg) ≤ 2)%nat ∧
  Forall (λ m, m.2 = track_name t) (error_events seg).

(** The number of pages with items among the answers. *)
Definition pages_with_items (answers : list fetch_outcome) : nat :=
  length (filter (λ p, page_items p ≠ []) (pages answers)).

(** What [get_all_saved_tracks] does to the outside world: it reads pages,
    sleeps, and yields rate limits, the total, tracks and fetch progress. *)
Definition extraction_action (a : action) : Prop :=
  match a with
  | GetSavedTracks _ _ | Sleep _ => True
  | Yield (ERateLimit _) | Yield (ETotal _) | Yield (ETrack _)
  | Yield (EFetched _ _) => True
  | _ => False
  end.

(** The records of the pages received in the first [n] calls: their items
    with a track, in order. *)
Definition extracted (oracle : nat → fetch_outcome) (n : nat) : list track :=
  flat_map (λ p, tracks_of_items (page_items p)) (pages (answers_from oracle 0 n)).

(** A request to the application: the route of [app.py] it is dispatched
    to, its parameters, and the answers of the services the route calls. *)
Inductive request :=
| GetIndex
| GetSetup
| PostSaveCredentials (form_client_id form_client_secret : option string)
    (secret : string)
| GetLogin (get_authorize_url : oauth_manager → string → app_exn + string)
    (account_type nonce : string)
| GetCallback
    (get_access_token :
       oauth_manager → option string → gmap string file →
       (app_exn + gmap string string) * gmap string file)
    (current_user : string → app_exn + api_user)
    (code state error : option string)
| GetFetchTracks
| GetFetchStream (current_user_saved_tracks : nat → fetch_outcome) (fuel : nat)
| GetShowTracks
| GetTransfer
| GetTransferStream (requests_put : nat → put_outcome)
    (current_user_saved_tracks_add : nat → add_outcome)
| GetReset.

Section Serve.
Variable strip : string → string.
Variable load_dotenv : gmap string file → gmap string string → gmap string string.

(** The route table of [app.py]. *)
Definition serve (r : request) (w : world) : flask_response * world :=
  match r with
  | GetIndex => index w
  | GetSetup => setup w
  | PostSaveCredentials form_client_id form_client_secret secret =>
      save_credentials strip load_dotenv form_client_id form_client_secret secret w
  | GetLogin get_authorize_url account_type nonce =>
      login get_authorize_url account_type nonce w
  | GetCallback get_access_token current_user code state error =>
      callback get_access_token current_user code state error w
  | GetFetchTracks => fetch_tracks w
  | GetFetchStream current_user_saved_tracks fuel =>
      fetch_stream current_user_saved_tracks fuel w
  | GetShowTracks => show_tracks w
  | GetTransfer => transfer w
  | GetTransferStream requests_put current_user_saved_tracks_add =>
      transfer_stream requests_put current_user_saved_tracks_add w
  | GetReset => reset w
  end.

(** The worlds a browser can find itself in: it starts with an empty
    session, its requests are served one after the other, and in between the
    files and the environment may change, through other browsers or from
    outside the application, to any files of the kinds of [file] and any
    environment. *)
Inductive reachable : world → Prop :=
| reach_fresh fs env : reachable (World ∅ fs env)
| reach_serve r w : reachable w → reachable (serve r w).2
| reach_elsewhere w fs env : reachable w → reachable (World (session w) fs env).
End Serve.

(** What holds of the session of every reachable world: it has no ['tracks'],
    a pending state is a string, and for every account type the token and
    the user are stored together, the token with its [access_token]. *)
Definition account_stored (sess : gmap string svalue) (account_type : string)
  : Prop :=
  match sess !! (account_type +:+ "_token"), sess !! (account_type +:+ "_user") with
  | Some (SToken t), Some (SUser _) => is_Some (t !! "access_token")
  | None, None => True
  | _, _ => False
  end.

Definition session_ok (sess : gmap string svalue) : Prop :=
  sess !! "tracks" = None ∧
  (∀ v, sess !! "oauth_state" = Some v → ∃ s, v = SStr s) ∧
  (∀ account_type, account_stored sess account_type).

(** ** Sample data *)

Definition sample_track (n added_at : string) : track :=
  Track ("id" +:+ n) ("name" +:+ n) "artist" "album" None added_at.

Definition snapshot3 : list track :=
  [ sample_track "3" "2024-01-03T10:00:00Z";
    sample_track "1" "2024-01-01T10:00:00Z";
    sample_track "2" "2024-01-02T10:00:00Z" ].

Definition snapshot_of (n : nat) : list track :=
  map (λ k, sample_track (pretty k) "2024-01-01T10:00:00Z") (seq 0 n).

Definition put_ok : nat → put_outcome := λ _, PutReturns (Response 200 HAbsent).
Definition add_ok : nat → add_outcome := λ _, AddReturns.

(** A destination that rejects every insertion with a server error, and one
    that answers every insertion with a rate limit. *)
Definition put_500 : nat → put_outcome := λ _, PutReturns (Response 500 HAbsent).
Definition put_429 : nat → put_outcome := λ _, PutReturns (Response 429 (HInt 1)).

Definition sample_item (n : string) : api_item :=
  ApiItem (Some (ApiTrack ("id" +:+ n) ("name" +:+ n) ["Ann"; "Bob"]
                          (ApiAlbum "album" ["cover.jpg"; "thumb.jpg"])))
          ("2024-01-0" +:+ n +:+ "T10:00:00Z").

(** A source that is rate limited once (Retry-After: 5), then returns a page
    of three items, one of them without a track, then an empty page. *)
Definition api_one_page : nat → fetch_outcome :=
  λ k, match k with
       | 0%nat => FetchRaises (HttpError 429 (HInt 5) "rate limited")
       | 1%nat => FetchReturns (Page 3 [sample_item "1"; ApiItem None "2024-01-02T10:00:00Z";
                                       sample_item "3"])
       | _ => FetchReturns (Page 3 [])
       end.




(** A destination that cannot be reached: every call raises. *)
Definition put_down : nat → put_outcome := λ n, PutRaises ("connection error " +:+ pretty n).

(** A bulk endpoint that fails on its second call. *)
Definition add_fails_second : nat → add_outcome :=
  λ n, match n with
       | 1%nat => AddRaises (HttpError 502 HAbsent "bad gateway")
       | _ => AddReturns
       end.

(** A session that holds a token for both accounts, no files, and an empty
    environment. *)
Definition sample_token (access_token : string) : svalue :=
  SToken {["access_token" := access_token]}.

Definition connected : world :=
  World {["source_token" := sample_token "src-token";
          "dest_token" := sample_token "dst-token"]} ∅ ∅.

(** Spotify's accounts service and profile endpoint when all goes well: the
    exchange hands out a token and writes it to the cache of the manager. *)
Definition authorize_ok : oauth_manager → string → app_exn + string :=
  λ _ state, inr ("https://accounts.spotify.com/authorize?state=" +:+ state).

Definition exchange_ok
  : oauth_manager → option string → gmap string file →
    (app_exn + gmap string string) * gmap string file :=
  λ m code fs,
    (inr {["access_token" := "token-of-" +:+ default "" code]},
     <[cache_path m := Text "token"]> fs).

Definition sample_user : api_user := ApiUser (Value "Ann") (Value "ann") (Value []).

Definition user_ok : string → app_exn + api_user := λ _, inr sample_user.

(** A browser that has asked to connect its source account. *)
Definition login_pending : world :=
  World {["oauth_state" := SStr "source:0123abcd"]} ∅ ∅.

(** The world of a browser that has connected its source account and
    streamed the extraction, starting without files. *)
Definition after_extraction : world :=
  let serve := serve (λ s, s) (λ _ env, env) in
  let w1 := (serve (GetLogin authorize_ok "source" "0123abcd") (World ∅ ∅ ∅)).2 in
  let w2 := (serve (GetCallback exchange_ok user_ok (Some "c0de")
                                (Some "source:0123abcd") None) w1).2 in
  (serve (GetFetchStream api_one_page 10) w2).2.


(** * Properties *)

(** ** The sort *)

Section PySorted.
Context {A : Type} (key : A → string).

Lemma compare_refl (x : string) : String.compare x x = Eq.
Proof.
  pose proof (String.compare_antisym x x) as H.
  by destruct (String.compare x x).
Qed.

Lemma ltb_irrefl (x : string) : String.ltb x x = false.
Proof. unfold String.ltb. by rewrite compare_refl. Qed.

Lemma leb_refl (x : string) : String.leb x x = true.
Proof. unfold String.leb. by rewrite compare_refl. Qed.

Lemma ltb_false_leb (x y : string) : String.ltb y x = false → String.leb x y = true.
Proof.
  unfold String.ltb, String.leb. rewrite (String.compare_antisym y x).
  by destruct (String.compare x y).
Qed.

Lemma ltb_true_leb (x y : string) : String.ltb y x = true → String.leb y x = true.
Proof. unfold String.ltb, String.leb. by destruct (String.compare y x). Qed.

Lemma leb_trans (x y z : string) :
  String.leb x y = true → String.leb y z = true → String.leb x z = true.
Proof.
  intros Hxy Hyz. apply Is_true_true.
  apply Is_true_true in Hxy, Hyz.
  exact (transitivity (R := String.le) Hxy Hyz).
Qed.

Lemma insert_by_perm x l : Permutation (insert_by key x l) (x :: l).
Proof.
  induction l as [|y l IH]; simpl; [done|].
  destruct (String.ltb (key y) (key x)); [|done].
  rewrite IH. apply perm_swap.
Qed.

Lemma py_sorted_perm l : Permutation (py_sorted key l) l.
Proof.
  induction l as [|x l IH]; simpl; [done|].
  rewrite insert_by_perm. by constructor.
Qed.

Lemma py_sorted_length l : length (py_sorted key l) = length l.
Proof. apply Permutation_length, py_sorted_perm. Qed.

Lemma insert_by_sorted x l :
  StronglySorted (key_le key) l → StronglySorted (key_le key) (insert_by key x l).
Proof.
  induction 1 as [|y l Hl IH Hy]; simpl.
  - repeat constructor.
  - destruct (String.ltb (key y) (key x)) eqn:Hlt.
    + constructor; [done|].
      rewrite (insert_by_perm x l).
      constructor; [|done]. by apply ltb_true_leb.
    + assert (key_le key x y) as Hxy by (by apply ltb_false_leb).
      constructor; [by constructor|].
      constructor; [done|].
      eapply Forall_impl; [exact Hy|].
      intros z Hz. unfold key_le in *. by eapply leb_trans.
Qed.

Lemma py_sorted_sorted l : StronglySorted (key_le key) (py_sorted key l).
Proof.
  induction l as [|x l IH]; simpl; [constructor|]. by apply insert_by_sorted.
Qed.

Lemma insert_by_stable k x l :
  filter (λ a, key a = k) (insert_by key x l) = filter (λ a, key a = k) (x :: l).
Proof.
  induction l as [|y l IH]; simpl; [done|].
  destruct (String.ltb (key y) (key x)) eqn:Hlt; [|done].
  rewrite !filter_cons in *. rewrite IH.
  destruct (decide (key y = k)) as [Hy|Hy], (decide (key x = k)) as [Hx|Hx];
    try done.
  rewrite Hy, Hx, ltb_irrefl in Hlt. done.
Qed.

Lemma py_sorted_stable k l :
  filter (λ a, key a = k) (py_sorted key l) = filter (λ a, key a = k) l.
Proof.
  induction l as [|x l IH]; simpl; [done|].
  rewrite insert_by_stable, !filter_cons. by rewrite IH.
Qed.

(** Two lists sorted by key with the same elements in the same order under
    every key are the same list. *)
Lemma stable_sorted_unique l1 l2 :
  StronglySorted (key_le key) l1 → StronglySorted (key_le key) l2 →
  (∀ k, filter (λ a, key a = k) l1 = filter (λ a, key a = k) l2) →
  l1 = l2.
Proof.
  intros H1. revert l2.
  induction H1 as [|x l1 Hl1 IH Hx]; intros l2 H2 Hf.
  - destruct l2 as [|y l2]; [done|].
    specialize (Hf (key y)). rewrite filter_cons_True in Hf by done. done.
  - destruct H2 as [|y l2 Hl2 Hy].
    { specialize (Hf (key x)). rewrite filter_cons_True in Hf by done. done. }
    assert (key x = key y) as Hk.
    { apply String.leb_antisym.
      - assert (y ∈ filter (λ a, key a = key y) (x :: l1)) as Hin.
        { rewrite Hf, filter_cons_True by done. left. }
        apply list_elem_of_filter in Hin as [_ Hin].
        apply elem_of_cons in Hin as [->|Hin].
        + apply leb_refl.
        + rewrite Forall_forall in Hx. by apply Hx.
      - assert (x ∈ filter (λ a, key a = key x) (y :: l2)) as Hin.
        { rewrite <- Hf, filter_cons_True by done. left. }
        apply list_elem_of_filter in Hin as [_ Hin].
        apply elem_of_cons in Hin as [->|Hin].
        + apply leb_refl.
        + rewrite Forall_forall in Hy. by apply Hy. }
    pose proof (Hf (key x)) as Hh.
    rewrite filter_cons_True in Hh by done.
    rewrite filter_cons_True in Hh by done.
    injection Hh as -> Hh. f_equal.
    apply IH; [done|]. intros k. specialize (Hf k).
    rewrite !filter_cons in Hf. destruct (decide (key y = k)); [|done].
    by injection Hf.
Qed.

(** [py_sorted] returns the one list a stable sort by [key] can return. *)
Lemma py_sorted_unique l l' :
  StronglySorted (key_le key) l' →
  (∀ k, filter (λ a, key a = k) l' = filter (λ a, key a = k) l) →
  l' = py_sorted key l.
Proof.
  intros Hs Hf. apply stable_sorted_unique; [done|apply py_sorted_sorted|].
  intros k. by rewrite Hf, py_sorted_stable.
Qed.
End PySorted.

(** ** Traces *)

Lemma events_app w1 w2 : events (w1 ++ w2) = events w1 ++ events w2.
Proof. apply omap_app. Qed.

Lemma put_calls_app w1 w2 : put_calls (w1 ++ w2) = put_calls w1 ++ put_calls w2.
Proof. apply omap_app. Qed.

Lemma put_ids_app w1 w2 : put_ids (w1 ++ w2) = put_ids w1 ++ put_ids w2.
Proof. unfold put_ids. by rewrite put_calls_app, fmap_app, join_app. Qed.

Lemma divides_by_app lo d w1 w2 :
  divides_by lo d w1 → divides_by lo d w2 → divides_by lo d (w1 ++ w2).
Proof. apply Forall_app_2. Qed.

Lemma divides_by_mono lo lo' d w :
  lo' ≤ lo → divides_by lo d w → divides_by lo' d w.
Proof.
  intros Hlo Hw. eapply Forall_impl; [exact Hw|].
  intros [] ?; try done. intuition lia.
Qed.

Lemma with_retries_refl ids : with_retries ids ids.
Proof. induction ids; by constructor. Qed.

Lemma percent_eq {S} (a b : Z) (s : S) :
  percent a b s = (percent_value a b, s, [Divide a b]).
Proof.
  unfold percent_value, outcome, percent, true_div, bind, tell, raise, ret. simpl.
  destruct (b =? 0); [done|].
  unfold int_of_float. by destruct (float_mul _ _).
Qed.

(** The division raises exactly on a zero denominator. *)
Lemma true_div_raises {S} (a b : Z) (s : S) :
  outcome (true_div a b s) = Raise ZeroDivisionError ↔ b = 0.
Proof.
  unfold outcome, true_div, bind, tell, raise, ret. simpl.
  destruct (b =? 0) eqn:Hb; simpl; split; try done; lia.
Qed.

(** Unfolding an iteration of the one-by-one loop down to the oracle. *)
Ltac run_item :=
  unfold ordered_item, ordered_try, count_and_report, try_except, put_track,
    next_call, add_transferred, get_transferred, int_retry_after, sleep_seconds,
    sleep_ms, yield, bind, tell, raise, ret, modify, get; simpl.

(** ** One iteration of the one-by-one loop *)

Section OrderedItem.
Variable requests_put : nat → put_outcome.
Variable access_token : string.

Local Abbreviation item := (ordered_item requests_put access_token).

Local Ltac run_cases :=
  repeat (simpl;
    match goal with
    | |- context [requests_put ?n] =>
        destruct (requests_put n) as [[? ?]|?] eqn:?
    | |- context [match ?h with HAbsent => _ | HInt _ => _ | HBad _ => _ end] =>
        destruct h
    | |- context [if ?b then _ else _] => destruct b eqn:?
    | |- context [percent ?a ?b ?s] =>
        rewrite (percent_eq a b s); destruct (percent_value a b)
    end).

Lemma ordered_item_spec total t s :
  ∃ s' w k,
    item total t s = (Ok tt, s', w) ∧
    tracks_obj s' = tracks_obj s ∧
    (k = 1%nat ∨
     k = 2%nat ∧ ∃ h, requests_put (calls s) = PutReturns (Response 429 h)) ∧
    calls s' = (calls s + k)%nat ∧
    put_calls w = replicate k ("Bearer " +:+ access_token, [track_id t]) ∧
    (transferred s' = transferred s ∨ transferred s' = transferred s + 1) ∧
    divides_by (transferred s) total w.
Proof.
  run_item. run_cases.
  all: first
    [ eexists _, _, 1%nat; split; [reflexivity|]; simpl;
      split_and!; [done|by left|lia|done|auto|repeat constructor; lia]
    | eexists _, _, 2%nat; split; [reflexivity|]; simpl;
      split_and!; [done|right|lia|done|auto|repeat constructor; lia];
      split; [done|]; eexists; f_equal; f_equal; f_equal; lia ].
Qed.

(** The one-by-one loop over any list of records. *)
Lemma ordered_loop_spec total l : ∀ s,
  ∃ s' w,
    for_each l (item total) s = (Ok tt, s', w) ∧
    tracks_obj s' = tracks_obj s ∧
    Forall (single_item_call access_token) (put_calls w) ∧
    with_retries (map track_id l) (put_ids w) ∧
    ((∀ n r, requests_put n = PutReturns r → status_code r ≠ 429) →
     put_ids w = map track_id l) ∧
    transferred s ≤ transferred s' ≤ transferred s + Z.of_nat (length l) ∧
    divides_by (transferred s) total w.
Proof.
  induction l as [|t l IH]; intros s; simpl.
  - eexists _, _. split; [reflexivity|]. simpl.
    split_and!; try done; try lia; constructor.
  - unfold bind at 1.
    destruct (ordered_item_spec total t s)
      as (s1 & w1 & k & -> & Ho & Hk & Hc & Hp & Ht & Hd).
    destruct (IH s1) as (s2 & w2 & -> & Ho2 & Hs2 & Hr2 & Hn2 & Ht2 & Hd2).
    eexists _, _. split; [reflexivity|].
    unfold put_ids in *. rewrite put_calls_app, fmap_app, join_app, Hp.
    split_and!.
    + congruence.
    + apply Forall_app_2; [|done].
      apply Forall_replicate. by split.
    + destruct Hk as [->|[-> _]]; simpl; by constructor.
    + intros Hno. destruct Hk as [->|[-> [h Hh]]].
      * simpl. f_equal. by apply Hn2.
      * by apply Hno in Hh.
    + lia.
    + lia.
    + apply divides_by_app; [done|].
      eapply divides_by_mono; [|done]. lia.
Qed.
End OrderedItem.

(** ** One iteration of the batch loop *)

Lemma py_range_bounds stop step i :
  0 < step → i ∈ py_range stop step → 0 ≤ i < stop.
Proof.
  intros Hstep Hi. unfold py_range in Hi.
  apply list_elem_of_In, in_map_iff in Hi as (k & <- & Hk).
  apply in_seq in Hk.
  assert (Z.of_nat k < (stop + step - 1) / step) as Hlt by lia.
  pose proof (Z.mul_div_le (stop + step - 1) step Hstep).
  nia.
Qed.

Section BatchItem.
Variable current_user_saved_tracks_add : nat → add_outcome.

Local Abbreviation item := (batch_item current_user_saved_tracks_add).

Lemma batch_item_spec total i s :
  0 ≤ i < Z.of_nat (length (tracks_obj s)) →
  ∃ s' w,
    item total i s = (Ok tt, s', w) ∧
    tracks_obj s' = tracks_obj s ∧
    transferred s ≤ transferred s' ∧
    divides_by (transferred s) total w.
Proof.
  intros Hi.
  unfold batch_item, batch_try, slice_tracks, try_except, add_tracks,
    next_call, add_transferred, get_transferred, sleep_ms, yield, bind,
    tell, raise, ret, modify, get; simpl.
  set (batch := take _ _).
  assert (0 < Z.of_nat (length batch)) as Hlen.
  { subst batch. rewrite length_take, length_drop. lia. }
  destruct (current_user_saved_tracks_add (calls s)); simpl.
  - rewrite percent_eq. destruct (percent_value _ _); simpl.
    all: eexists _, _; split; [reflexivity|]; simpl.
    all: split_and!; [done|lia|repeat constructor; lia].
  - eexists _, _; split; [reflexivity|]; simpl.
    split_and!; [done|lia|repeat constructor].
Qed.

Lemma batch_loop_spec total l : ∀ s,
  Forall (λ i, 0 ≤ i < Z.of_nat (length (tracks_obj s))) l →
  ∃ s' w,
    for_each l (item total) s = (Ok tt, s', w) ∧
    tracks_obj s' = tracks_obj s ∧
    transferred s ≤ transferred s' ∧
    divides_by (transferred s) total w.
Proof.
  induction l as [|i l IH]; intros s Hl; simpl.
  - eexists _, _. split; [reflexivity|]. split_and!; try done. constructor.
  - apply Forall_cons in Hl as [Hi Hl]. unfold bind at 1.
    destruct (batch_item_spec total i s Hi) as (s1 & w1 & -> & Ho & Ht & Hd).
    destruct (IH s1) as (s2 & w2 & -> & Ho2 & Ht2 & Hd2).
    { by rewrite Ho. }
    eexists _, _. split; [reflexivity|].
    split_and!; [congruence|lia|].
    apply divides_by_app; [done|].
    eapply divides_by_mono; [|done]. lia.
Qed.
End BatchItem.

(** ** Whole runs of [transfer_tracks] *)

Section TransferRuns.
Variable requests_put : nat → put_outcome.
Variable current_user_saved_tracks_add : nat → add_outcome.
Variable access_token : string.

Local Abbreviation run :=
  (run_transfer requests_put current_user_saved_tracks_add access_token).

Lemma run_ordered_spec tracks :
  let total := Z.of_nat (length tracks) in
  let tracks_sorted := py_sorted track_added_at tracks in
  ∃ s w,
    run tracks true = (Ok tt, s, w ++ [Yield (EComplete (transferred s) total)]) ∧
    tracks_obj s = tracks ∧
    Forall (single_item_call access_token) (put_calls w) ∧
    with_retries (map track_id tracks_sorted) (put_ids w) ∧
    ((∀ n r, requests_put n = PutReturns r → status_code r ≠ 429) →
     put_ids w = map track_id tracks_sorted) ∧
    0 ≤ transferred s ≤ total ∧
    divides_by 0 total w.
Proof.
  intros total tracks_sorted.
  destruct (ordered_loop_spec requests_put access_token total tracks_sorted
              (TState tracks 0 0))
    as (s & w & Hrun & Ho & Hc & Hr & Hn & Ht & Hd).
  exists s, w. simpl in *.
  unfold tracks_sorted in Ht. rewrite py_sorted_length in Ht.
  split_and!; try done; try lia.
  unfold run_transfer, transfer_tracks, len_tracks, sorted_tracks,
    get_transferred, yield, bind, tell, ret, get; simpl.
  fold total tracks_sorted. by rewrite Hrun.
Qed.

Lemma run_batch_spec tracks :
  let total := Z.of_nat (length tracks) in
  ∃ s w,
    run tracks false = (Ok tt, s, w ++ [Yield (EComplete (transferred s) total)]) ∧
    tracks_obj s = tracks ∧
    divides_by 0 total w.
Proof.
  intros total.
  destruct (batch_loop_spec current_user_saved_tracks_add total
              (py_range total 50) (TState tracks 0 0))
    as (s & w & Hrun & Ho & Ht & Hd).
  { apply Forall_forall. intros i Hi. by apply py_range_bounds in Hi. }
  exists s, w. simpl in *. split_and!; try done.
  unfold run_transfer, transfer_tracks, len_tracks, get_transferred, yield,
    bind, tell, ret, get; simpl.
  fold total. by rewrite Hrun.
Qed.
End TransferRuns.

Lemma ltb_asym (x y : string) : String.ltb x y = true → String.ltb y x = false.
Proof.
  unfold String.ltb. rewrite (String.compare_antisym y x).
  by destruct (String.compare x y).
Qed.

Lemma ltb_trans (x y z : string) :
  String.ltb x y = true → String.ltb y z = true → String.ltb x z = true.
Proof.
  intros Hxy Hyz.
  pose proof (leb_trans _ _ _ (ltb_true_leb _ _ Hxy) (ltb_true_leb _ _ Hyz)) as Hle.
  unfold String.ltb, String.leb in *.
  destruct (String.compare x z) eqn:Hc; try done.
  apply String.compare_eq_iff in Hc as ->.
  rewrite (String.compare_antisym y z) in Hyz.
  by destruct (String.compare z y).
Qed.

(** ** Main theorems about [transfer_tracks] *)

(** C1. In ordered mode the single-item insertion calls are issued for the
    records of the stable ascending sort by [added_at], in that order: the
    sorted list is a permutation of the input, ascending by [added_at], with
    records of equal [added_at] in their original relative order; the calls
    are its ids, each issued once, or twice in a row when retried, and exactly
    its ids when no response is a 429.  For records with [added_at] =
    [T3, T1, T2], T1 < T2 < T3, the order is T1, T2, T3. *)
Theorem ordered_calls_ascending requests_put add access_token tracks :
  let tracks_sorted := py_sorted track_added_at tracks in
  let w := trace (run_transfer requests_put add access_token tracks true) in
  tracks_sorted ≡ₚ tracks ∧
  StronglySorted (key_le track_added_at) tracks_sorted ∧
  (∀ k, filter (λ t, track_added_at t = k) tracks_sorted
        = filter (λ t, track_added_at t = k) tracks) ∧
  Forall (single_item_call access_token) (put_calls w) ∧
  with_retries (map track_id tracks_sorted) (put_ids w) ∧
  ((∀ n r, requests_put n = PutReturns r → status_code r ≠ 429) →
   put_ids w = map track_id tracks_sorted) ∧
  (∀ a b c,
     tracks = [a; b; c] →
     String.ltb (track_added_at b) (track_added_at c) = true →
     String.ltb (track_added_at c) (track_added_at a) = true →
     tracks_sorted = [b; c; a]).
Proof.
  intros tracks_sorted w.
  destruct (run_ordered_spec requests_put add access_token tracks)
    as (s & w' & Hrun & _ & Hc & Hr & Hn & _ & _).
  assert (put_calls w = put_calls w') as Hw.
  { unfold w, trace. rewrite Hrun. simpl. rewrite put_calls_app. simpl.
    by rewrite app_nil_r. }
  unfold put_ids. rewrite Hw.
  split_and!.
  - apply py_sorted_perm.
  - apply py_sorted_sorted.
  - intros k. apply py_sorted_stable.
  - done.
  - done.
  - done.
  - intros a b c -> Hbc Hca. unfold tracks_sorted. simpl.
    rewrite (ltb_asym _ _ Hbc). simpl.
    rewrite (ltb_trans _ _ _ Hbc Hca). simpl.
    by rewrite Hca.
Qed.

Lemma ordered_calls_ascending_witness :
  put_ids (trace (run_transfer put_ok add_ok "token" snapshot3 true))
  = ["id1"; "id2"; "id3"].
Proof.
  destruct (ordered_calls_ascending put_ok add_ok "token" snapshot3)
    as (_ & _ & _ & _ & _ & Hno & Hex).
  rewrite Hno.
  - rewrite (Hex _ _ _ eq_refl eq_refl eq_refl). reflexivity.
  - intros n r [= <-]. done.
Defined.

(** C8. [transfer_tracks] does no deduplication: two runs on the same
    snapshot, whatever the destination answers in either of them, both issue
    an insertion call for every record of the snapshot (one per record, a
    second one only as the retry of a 429), for the same ids in the same
    order. *)
Theorem rerun_reinserts_everything put1 put2 add1 add2 access_token tracks :
  let ids := map track_id (py_sorted track_added_at tracks) in
  let w1 := trace (run_transfer put1 add1 access_token tracks true) in
  let w2 := trace (run_transfer put2 add2 access_token tracks true) in
  length ids = length tracks ∧
  with_retries ids (put_ids w1) ∧
  with_retries ids (put_ids w2) ∧
  ((∀ n r, put1 n = PutReturns r → status_code r ≠ 429) →
   (∀ n r, put2 n = PutReturns r → status_code r ≠ 429) →
   put_ids w1 = ids ∧ put_ids w2 = ids).
Proof.
  intros ids w1 w2.
  destruct (run_ordered_spec put1 add1 access_token tracks)
    as (s1 & w1' & Hrun1 & _ & _ & Hr1 & Hn1 & _ & _).
  destruct (run_ordered_spec put2 add2 access_token tracks)
    as (s2 & w2' & Hrun2 & _ & _ & Hr2 & Hn2 & _ & _).
  assert (put_ids w1 = put_ids w1') as ->.
  { unfold w1, trace. rewrite Hrun1. simpl. rewrite put_ids_app. simpl.
    by rewrite app_nil_r. }
  assert (put_ids w2 = put_ids w2') as ->.
  { unfold w2, trace. rewrite Hrun2. simpl. rewrite put_ids_app. simpl.
    by rewrite app_nil_r. }
  split_and!; try done.
  - unfold ids. by rewrite length_map, py_sorted_length.
  - intros H1 H2. split; [by apply Hn1|by apply Hn2].
Qed.

Lemma rerun_reinserts_everything_witness :
  put_ids (trace (run_transfer put_ok add_ok "token" snapshot3 true))
  = ["id1"; "id2"; "id3"] ∧
  put_ids (trace (run_transfer put_500 add_ok "token" snapshot3 true))
  = ["id1"; "id2"; "id3"].
Proof.
  destruct (rerun_reinserts_everything put_ok put_500 add_ok add_ok "token" snapshot3)
    as (_ & _ & _ & Hno).
  apply Hno; intros n r [= <-]; done.
Defined.

(** C9. On the empty list [transfer_tracks] yields [Complete{0, 0}] and
    nothing else, in either mode, and evaluates no division; in every run,
    every division [transferred / total] is evaluated with at least one item
    counted and with [total >= 1], so it never raises [ZeroDivisionError]. *)
Theorem division_never_by_zero requests_put add access_token tracks preserve_order :
  let empty_run := run_transfer requests_put add access_token [] preserve_order in
  let w := trace (run_transfer requests_put add access_token tracks preserve_order) in
  trace empty_run = [Yield (EComplete 0 0)] ∧
  Forall (λ a, match a with
               | Divide x y => 1 ≤ x ∧ 1 ≤ y ∧ y = Z.of_nat (length tracks)
               | _ => True
               end) w.
Proof.
  intros empty_run w. split.
  { unfold empty_run. by destruct preserve_order. }
  assert (∃ s w', run_transfer requests_put add access_token tracks preserve_order
                  = (Ok tt, s, w' ++ [Yield (EComplete (transferred s)
                                                       (Z.of_nat (length tracks)))])
                  ∧ divides_by 0 (Z.of_nat (length tracks)) w')
    as (s & w' & Hrun & Hd).
  { destruct preserve_order.
    - destruct (run_ordered_spec requests_put add access_token tracks)
        as (s & w' & Hrun & _ & _ & _ & _ & _ & Hd). by exists s, w'.
    - destruct (run_batch_spec requests_put add access_token tracks)
        as (s & w' & Hrun & _ & Hd). by exists s, w'. }
  unfold w, trace. rewrite Hrun. simpl.
  apply Forall_app_2; [|by repeat constructor].
  destruct (decide (tracks = [])) as [->|Hne].
  { assert (w' = []) as -> by
      (destruct preserve_order; injection Hrun as _ Hw;
       destruct w' as [|? [|? ?]]; done).
    constructor. }
  assert (1 ≤ Z.of_nat (length tracks)) by (destruct tracks; simpl; [done|lia]).
  eapply Forall_impl; [exact Hd|].
  intros [] ?; try done. intuition lia.
Qed.

(** C10. [transfer_tracks] leaves the caller's list as it found it: the
    generator runs to its end without raising, and the list object passed as
    [tracks] then holds the same records in the same order, in either mode. *)
Theorem transfer_tracks_preserves_input
    requests_put add access_token tracks preserve_order :
  let run := run_transfer requests_put add access_token tracks preserve_order in
  outcome run = Ok tt ∧ tracks_obj (final_state run) = tracks.
Proof.
  intros run. unfold run. destruct preserve_order.
  - destruct (run_ordered_spec requests_put add access_token tracks)
      as (s & w & -> & Ho & _). done.
  - destruct (run_batch_spec requests_put add access_token tracks)
      as (s & w & -> & Ho & _). done.
Qed.

(** ** [get_all_saved_tracks], one iteration at a time *)

Section LoopSteps.
Variable current_user_saved_tracks : nat → fetch_outcome.

Local Abbreviation loop := (saved_tracks_loop current_user_saved_tracks).

Lemma for_each_items items s :
  for_each items item_body s
  = (Ok tt, s, map (λ t, Yield (ETrack t)) (tracks_of_items items)).
Proof.
  induction items as [|item items IH]; simpl; [done|].
  unfold bind at 1, item_body at 1, tracks_of_items. simpl.
  destruct (item_track item) as [t|]; simpl; by rewrite IH.
Qed.

Local Arguments for_each : simpl never.

Local Ltac run_loop :=
  unfold try_fetch, fetch_page, try_except, get_offset, next_fetch,
    int_retry_after, sleep_seconds, yield, bind, tell, raise, ret, modify,
    get; simpl.

Lemma loop_step_fatal fuel s e :
  current_user_saved_tracks (fetches s) = FetchRaises e →
  (∀ h text, e ≠ HttpError 429 h text) →
  loop (S fuel) s
  = (Raise (exn_of_api_error e), after_fetch s, [GetSavedTracks 50 (offset s)]).
Proof.
  intros He Hne. simpl. run_loop. rewrite He. simpl.
  destruct e as [st h text|text]; simpl; [|done].
  destruct (st =? 429) eqn:Hst; [|done].
  apply Z.eqb_eq in Hst as ->. by destruct (Hne h text).
Qed.

Lemma sleepable_bounds n : sleepable n = true ↔ 0 ≤ n ≤ max_sleep_seconds.
Proof. unfold sleepable. lia. Qed.

Lemma sleep_seconds_sleepable {S} n (s : S) :
  sleepable n = true → sleep_seconds n s = (Ok tt, s, [Sleep (1000 * n)]).
Proof.
  intros Hn. apply sleepable_bounds in Hn. unfold max_sleep_seconds in Hn.
  unfold sleep_seconds, max_sleep_seconds.
  destruct (_ || _) eqn:Hover; [lia|].
  by destruct (n <? 0) eqn:Hneg; [lia|].
Qed.

Lemma sleep_seconds_unsleepable {S} n (s : S) :
  sleepable n = false → sleep_seconds n s = (Raise (sleep_error n), s, []).
Proof.
  intros Hn. unfold sleep_seconds, sleep_error.
  destruct (_ || _) eqn:Hover; [done|].
  destruct (n <? 0) eqn:Hneg; [done|].
  unfold sleepable, max_sleep_seconds in *. lia.
Qed.

Local Arguments sleep_seconds : simpl never.

Lemma loop_step_rate_limit fuel s h text n :
  current_user_saved_tracks (fetches s) = FetchRaises (HttpError 429 h text) →
  retry_after_value h = Some n →
  sleepable n = true →
  loop (S fuel) s
  = prepend [GetSavedTracks 50 (offset s); Yield (ERateLimit n); Sleep (1000 * n)]
            (loop fuel (after_fetch s)).
Proof.
  intros He Hh Hn. simpl.
  unfold try_fetch, fetch_page, try_except, get_offset, next_fetch,
    int_retry_after, yield, bind, tell, raise, ret, modify, get; simpl.
  rewrite He. simpl.
  destruct h; simplify_eq/=.
  all: rewrite ?(sleep_seconds_sleepable _ _ Hn); simpl.
  all: by destruct (loop fuel _) as [[r s'] w].
Qed.

Lemma loop_step_bad_header fuel s raw text :
  current_user_saved_tracks (fetches s)
  = FetchRaises (HttpError 429 (HBad raw) text) →
  loop (S fuel) s
  = (Raise (ValueError ("invalid literal for int() with base 10: '" +:+ raw +:+ "'")),
     after_fetch s, [GetSavedTracks 50 (offset s)]).
Proof. intros He. simpl. run_loop. by rewrite He. Qed.

Lemma loop_step_unsleepable fuel s h text n :
  current_user_saved_tracks (fetches s) = FetchRaises (HttpError 429 h text) →
  retry_after_value h = Some n →
  sleepable n = false →
  loop (S fuel) s
  = (Raise (sleep_error n),
     after_fetch s, [GetSavedTracks 50 (offset s); Yield (ERateLimit n)]).
Proof.
  intros He Hh Hn. simpl.
  unfold try_fetch, fetch_page, try_except, get_offset, next_fetch,
    int_retry_after, yield, bind, tell, raise, ret, modify, get; simpl.
  rewrite He. simpl.
  destruct h as [|m|]; simplify_eq/=.
  by rewrite (sleep_seconds_unsleepable _ _ Hn).
Qed.

Lemma loop_step_empty_page fuel s tot :
  current_user_saved_tracks (fetches s) = FetchReturns (Page tot []) →
  loop (S fuel) s
  = (Ok Break,
     EState (offset s) (Some (default tot (total s))) (S (fetches s)),
     GetSavedTracks 50 (offset s)
     :: match total s with None => [Yield (ETotal tot)] | Some _ => [] end).
Proof.
  intros He. simpl. run_loop. rewrite He. simpl.
  by destruct (total s).
Qed.

Lemma loop_step_page fuel s tot items :
  current_user_saved_tracks (fetches s) = FetchReturns (Page tot items) →
  items ≠ [] →
  let T := default tot (total s) in
  loop (S fuel) s
  = prepend (GetSavedTracks 50 (offset s)
             :: match total s with None => [Yield (ETotal tot)] | Some _ => [] end
             ++ map (λ t, Yield (ETrack t)) (tracks_of_items items)
             ++ [Yield (EFetched (Z.min (offset s + 50) T) T); Sleep 300])
            (loop fuel (EState (offset s + 50) (Some T) (S (fetches s)))).
Proof.
  intros He Hne T. simpl. run_loop. rewrite He. simpl.
  destruct items as [|item items]; [done|].
  unfold T, set_total, add_offset, get_total, sleep_ms, prepend.
  destruct (total s) as [T0|]; simpl.
  all: unfold bind, modify, get, ret, tell; simpl.
  all: rewrite for_each_items; simpl.
  all: destruct (loop fuel _) as [[r s'] w]; simpl.
  all: by rewrite <- app_assoc.
Qed.
End LoopSteps.

(** ** [get_all_saved_tracks], whole runs *)

Lemma answers_from_S oracle from n :
  answers_from oracle from (S n) = oracle from :: answers_from oracle (S from) n.
Proof. done. Qed.

Lemma last_verdict_cons a rest :
  verdict a = None → last (a :: rest) ≫= verdict = last rest ≫= verdict.
Proof. intros Ha. by destruct rest. Qed.

Section LoopRuns.
Variable current_user_saved_tracks : nat → fetch_outcome.

Local Abbreviation loop := (saved_tracks_loop current_user_saved_tracks).
Local Abbreviation answers := (answers_from current_user_saved_tracks).

Local Ltac last_iteration_with Ha tac :=
  exists 1%nat; unfold answers_from; simpl; rewrite Ha; simpl; tac;
  split_and!;
  [lia|lia|by rewrite ?app_nil_r|done
  |intros [|[|i]] a; simpl; intros; simplify_eq/=; done
  |by right].

Local Ltac last_iteration Ha := last_iteration_with Ha idtac.

Local Ltac next_iteration IH Ha s1 Hv :=
  let n := fresh "n" in
  destruct (IH s1) as (n & Hn & Hf & Ht & Ho & Hs & Hl);
  exists (S n); rewrite answers_from_S, Ha;
  unfold prepend, trace, outcome, final_state in *;
  rewrite (last_verdict_cons _ _ Hv);
  simpl in Hf, Ht, Ho, Hs, Hl |- *;
  split_and!;
  [lia|lia|idtac|done
  |intros [|i] a; simpl; [by intros [= <-]|intros Hi Hva; f_equal; eauto]
  |destruct Hl as [->|Hl]; [by left|by right]].

Lemma loop_closed_form fuel : ∀ s,
  ∃ n,
    let run := loop fuel s in
    let ans := answers (fetches s) n in
    (n ≤ fuel)%nat ∧
    fetches (final_state run) = (fetches s + n)%nat ∧
    trace run = expected_trace (offset s) (total s) ans ∧
    outcome run = default (Ok OutOfFuel) (last ans ≫= verdict) ∧
    (∀ i a, ans !! i = Some a → verdict a ≠ None → S i = n) ∧
    (n = fuel ∨ last ans ≫= verdict ≠ None).
Proof.
  induction fuel as [|fuel IH]; intros s.
  { exists 0%nat. simpl. split_and!; try done. by left. }
  destruct (current_user_saved_tracks (fetches s)) as [[tot items]|e] eqn:Ha.
  - destruct items as [|item items].
    + rewrite (loop_step_empty_page _ _ _ _ Ha). last_iteration Ha.
    + rewrite (loop_step_page _ _ _ _ _ Ha) by done.
      assert (verdict (FetchReturns (Page tot (item :: items))) = None)
        as Hv by done.
      next_iteration IH Ha
        (EState (offset s + 50) (Some (default tot (total s))) (S (fetches s))) Hv.
      rewrite Ht. by rewrite <- !app_assoc.
  - destruct e as [st h text|text].
    + destruct (decide (st = 429)) as [->|Hst].
      * destruct (retry_after_value h) as [n|] eqn:Hh.
        -- destruct (sleepable n) eqn:Hsleep.
           ++ rewrite (loop_step_rate_limit _ _ _ _ _ _ Ha Hh Hsleep).
              assert (verdict (FetchRaises (HttpError 429 h text)) = None)
                as Hv.
              { simpl. rewrite Hh. simpl. rewrite Hsleep. by destruct h. }
              next_iteration IH Ha (after_fetch s) Hv.
              rewrite Ht, Hh. by rewrite Hsleep.
           ++ rewrite (loop_step_unsleepable _ _ _ _ _ _ Ha Hh Hsleep).
              last_iteration_with Ha
                ltac:(rewrite ?Hh; simpl; rewrite ?Hsleep;
                      destruct h; simplify_eq/=; rewrite ?Hsleep).
        -- destruct h as [| |raw]; try done.
           rewrite (loop_step_bad_header _ _ _ _ _ Ha). last_iteration Ha.
      * rewrite (loop_step_fatal _ _ _ _ Ha) by congruence.
        assert ((st =? 429) = false) as Hne by lia.
        last_iteration_with Ha ltac:(rewrite ?Hne).
    + rewrite (loop_step_fatal _ _ _ _ Ha) by done. last_iteration Ha.
Qed.
End LoopRuns.

Lemma expected_trace_app off T l1 l2 :
  expected_trace off T (l1 ++ l2)
  = expected_trace off T l1
    ++ expected_trace (offset_after off l1) (total_after T l1) l2.
Proof.
  revert off T. induction l1 as [|a l1 IH]; intros off T; simpl; [done|].
  by rewrite IH, <- app_assoc.
Qed.

Local Arguments tracks_of_items : simpl never.

Lemma requests_app w1 w2 : requests (w1 ++ w2) = requests w1 ++ requests w2.
Proof. apply omap_app. Qed.

Lemma fetched_events_app w1 w2 :
  fetched_events (w1 ++ w2) = fetched_events w1 ++ fetched_events w2.
Proof. apply omap_app. Qed.

Lemma track_events_app w1 w2 :
  track_events (w1 ++ w2) = track_events w1 ++ track_events w2.
Proof. apply omap_app. Qed.

Lemma total_events_app w1 w2 :
  total_events (w1 ++ w2) = total_events w1 ++ total_events w2.
Proof. apply omap_app. Qed.

Lemma requests_tracks (l : list track) :
  requests (map (λ t, Yield (ETrack t)) l) = [].
Proof. by induction l. Qed.

Lemma fetched_events_tracks (l : list track) :
  fetched_events (map (λ t, Yield (ETrack t)) l) = [].
Proof. by induction l. Qed.

Lemma total_events_tracks (l : list track) :
  total_events (map (λ t, Yield (ETrack t)) l) = [].
Proof. by induction l. Qed.

Lemma track_events_tracks (l : list track) :
  track_events (map (λ t, Yield (ETrack t)) l) = l.
Proof.
  induction l as [|t l IH]; [done|].
  unfold track_events in *. simpl. by f_equal.
Qed.

Local Ltac project_segment a T :=
  unfold expected_segment;
  destruct a as [[? [|? ?]]|[? ? ?|?]]; destruct T; simpl;
  rewrite ?requests_app, ?fetched_events_app, ?total_events_app,
    ?track_events_app;
  rewrite ?requests_tracks, ?fetched_events_tracks, ?total_events_tracks,
    ?track_events_tracks;
  simpl; rewrite ?app_nil_r; try done;
  repeat match goal with
  | |- context [?st =? 429] => destruct (st =? 429)
  | |- context [retry_after_value ?h] => destruct (retry_after_value h)
  | |- context [sleepable ?n] => destruct (sleepable n)
  end; try done.

Lemma requests_segment off T a : requests (expected_segment off T a) = [(50, off)].
Proof. project_segment a T. Qed.

Lemma requests_expected off T answers :
  requests (expected_trace off T answers) = map (pair 50) (offsets off answers).
Proof.
  revert off T. induction answers as [|a rest IH]; intros off T; [done|].
  cbn [expected_trace offsets map].
  by rewrite requests_app, requests_segment, IH.
Qed.

Lemma fetched_events_expected off T answers :
  fetched_events (expected_trace off T answers) = expected_fetched off T answers.
Proof.
  revert off T. induction answers as [|a rest IH]; intros off T; [done|].
  cbn [expected_trace expected_fetched].
  rewrite fetched_events_app, IH. f_equal.
  project_segment a T.
Qed.

Lemma track_events_expected off T answers :
  track_events (expected_trace off T answers)
  = flat_map (λ p, tracks_of_items (page_items p)) (pages answers).
Proof.
  revert off T. induction answers as [|a rest IH]; intros off T; [done|].
  cbn [expected_trace].
  rewrite track_events_app, IH. unfold pages.
  project_segment a T.
Qed.

Lemma total_events_expected off T answers :
  total_events (expected_trace off T answers)
  = match T with
    | Some _ => []
    | None => option_list (page_total <$> head (pages answers))
    end.
Proof.
  revert off T. induction answers as [|a rest IH]; intros off T.
  { by destruct T. }
  cbn [expected_trace].
  rewrite total_events_app, IH. unfold pages.
  project_segment a T.
Qed.







Lemma verdict_rate_limit h text n :
  retry_after_value h = Some n → sleepable n = true →
  verdict (FetchRaises (HttpError 429 h text)) = None.
Proof.
  intros Hh Hn. simpl. rewrite Hh. simpl. rewrite Hn. by destruct h.
Qed.

(** The answers after which the loop goes on: a page with items, and a
    rate limit whose Retry-After is absent or a whole number of seconds that
    can be slept. *)
Lemma verdict_goes_on a :
  verdict a = None ↔
  (∃ tot item items, a = FetchReturns (Page tot (item :: items))) ∨
  (∃ h text n, a = FetchRaises (HttpError 429 h text) ∧
               retry_after_value h = Some n ∧ 0 ≤ n ≤ max_sleep_seconds).
Proof.
  split.
  - destruct a as [[tot [|item items]]|[st h text|text]]; simpl; try done.
    + intros _. left. eauto.
    + destruct (st =? 429) eqn:Hst; [|done].
      apply Z.eqb_eq in Hst as ->.
      destruct h as [|n|raw]; simpl; try done.
      * intros _. right. exists HAbsent, text, 30.
        split_and!; [done|done|done|by vm_compute].
      * destruct (sleepable n) eqn:Hn; [|done]. intros _. right.
        apply sleepable_bounds in Hn.
        exists (HInt n), text, n. split_and!; [done|done|lia|lia].
  - intros [(tot & item & items & ->)|(h & text & n & -> & Hh & Hn)]; [done|].
    apply (verdict_rate_limit h text n Hh). by apply sleepable_bounds.
Qed.

Lemma offsets_length off answers : length (offsets off answers) = length answers.
Proof.
  revert off. induction answers as [|a rest IH]; intros off; simpl; [done|].
  by rewrite IH.
Qed.

Lemma total_after_no_page T answers : pages answers = [] → total_after T answers = T.
Proof.
  unfold total_after, pages.
  revert T. induction answers as [|a rest IH]; intros T; simpl; [done|].
  destruct a as [p|e]; simpl; [done|]. apply IH.
Qed.

(** A run of the generator from its initial state. *)
Lemma run_closed_form oracle fuel :
  let run := get_all_saved_tracks oracle fuel in
  let n := fetches (final_state run) in
  let ans := answers_from oracle 0 n in
  (n ≤ fuel)%nat ∧
  trace run = expected_trace 0 None ans ∧
  outcome run = default (Ok OutOfFuel) (last ans ≫= verdict) ∧
  (∀ i a, ans !! i = Some a → verdict a ≠ None → S i = n) ∧
  (n = fuel ∨ last ans ≫= verdict ≠ None).
Proof.
  intros run n ans.
  destruct (loop_closed_form oracle fuel (EState 0 None 0))
    as (m & Hm & Hf & Ht & Ho & Hs & Hl).
  simpl in Hf. fold (get_all_saved_tracks oracle fuel) in *. fold run in Hf, Ht, Ho.
  assert (n = m) as Hn by done.
  unfold ans. rewrite Hn. done.
Qed.

(** ** Main theorems about [get_all_saved_tracks] *)






Lemma tracks_of_items_length items :
  (length (tracks_of_items items)
   + length (filter (λ item, item_track item = None) items))%nat
  = length items.
Proof.
  unfold tracks_of_items.
  induction items as [|item items IH]; simpl; [done|].
  rewrite filter_cons.
  case_decide as Hd.
  - rewrite Hd. simpl. unfold omap in *. lia.
  - destruct (item_track item); [|done]. simpl. unfold omap in *. lia.
Qed.

Lemma tracks_of_items_flat_map (ps : list page) :
  flat_map (λ p, tracks_of_items (page_items p)) ps
  = tracks_of_items (flat_map page_items ps).
Proof.
  unfold tracks_of_items.
  induction ps as [|p ps IH]; simpl; [done|]. by rewrite omap_app, IH.
Qed.

(** C7. The generator yields one [Total] event if it receives a page, with
    the total of the first page received and right after the request that
    returned it, and none otherwise; its [Track] events are, page by page
    and in order, the items whose track is not null, so their number is
    the number of items received minus those without a track; each carries the
    artist names joined by [", "] and the url of the first album image,
    [None] when there is no image. *)
Theorem extraction_events oracle fuel :
  let run := get_all_saved_tracks oracle fuel in
  let n := fetches (final_state run) in
  let ans := answers_from oracle 0 n in
  total_events (trace run) = option_list (page_total <$> head (pages ans)) ∧
  (∀ i p,
     ans !! i = Some (FetchReturns p) → pages (take i ans) = [] →
     total_events (trace run) = [page_total p] ∧
     ∃ before o after,
       trace run
       = before ++ GetSavedTracks 50 o :: Yield (ETotal (page_total p)) :: after ∧
       length (requests before) = i) ∧
  track_events (trace run)
  = flat_map (λ p, tracks_of_items (page_items p)) (pages ans) ∧
  (∀ items,
     tracks_of_items items
     = omap (λ item,
               match item_track item with
               | None => None
               | Some t =>
                   Some {| track_id := api_id t;
                           track_name := api_name t;
                           track_artists := String.concat ", " (api_artists t);
                           track_album := album_name (api_album_of t);
                           track_image := head (album_images (api_album_of t));
                           track_added_at := item_added_at item |}
               end) items) ∧
  (let items := flat_map page_items (pages ans) in
   (length (track_events (trace run))
    + length (filter (λ item, item_track item = None) items))%nat
   = length items).
Proof.
  intros run n ans.
  destruct (run_closed_form oracle fuel) as (Hn & Ht & Ho & Hs & Hl).
  fold run in Hn, Ht, Ho, Hs, Hl. fold n in Hn, Ht, Ho, Hs, Hl.
  fold ans in Ht, Ho, Hs, Hl.
  split_and!.
  - by rewrite Ht, total_events_expected.
  - intros i p Hi Hnone.
    pose proof (take_drop_middle _ _ _ Hi) as Hsplit.
    pose proof (lookup_lt_Some _ _ _ Hi) as Hlt.
    split.
    + rewrite Ht, total_events_expected, <- Hsplit.
      unfold pages in *. rewrite omap_app, Hnone. done.
    + destruct p as [tot items].
      eexists (expected_trace 0 None (take i ans)),
        (offset_after 0 (take i ans)), _.
      split.
      * rewrite Ht at 1. rewrite <- Hsplit at 1.
        rewrite expected_trace_app. f_equal.
        rewrite (total_after_no_page _ _ Hnone). simpl. reflexivity.
      * rewrite requests_expected, length_map, offsets_length, length_take. lia.
  - by rewrite Ht, track_events_expected.
  - intros items. unfold tracks_of_items.
    induction items as [|item items IH]; [done|].
    simpl. destruct (item_track item); simpl; [f_equal|]; exact IH.
  - simpl. rewrite Ht, track_events_expected, tracks_of_items_flat_map.
    apply tracks_of_items_length.
Qed.

Lemma extraction_events_witness :
  total_events (trace (get_all_saved_tracks api_one_page 10)) = [3].
Proof.
  destruct (extraction_events api_one_page 10) as (_ & Hfirst & _).
  destruct (Hfirst 1%nat
              (Page 3 [sample_item "1"; ApiItem None "2024-01-02T10:00:00Z";
                       sample_item "3"])) as [Htotal _].
  - reflexivity.
  - reflexivity.
  - exact Htotal.
Defined.

(** ** The one-by-one loop, case by case *)

Section OrderedCases.
Variable requests_put : nat → put_outcome.
Variable access_token : string.

Local Abbreviation item := (ordered_item requests_put access_token).
Local Abbreviation call t := (PutTrack ("Bearer " +:+ access_token) [track_id t]).

Local Arguments sleep_seconds : simpl never.

Local Ltac run_item_to_sleep :=
  unfold ordered_item, ordered_try, count_and_report, try_except, put_track,
    next_call, add_transferred, get_transferred, int_retry_after,
    sleep_ms, yield, bind, tell, raise, ret, modify, get; simpl.

Local Ltac finish_counted :=
  unfold counted, report, after_calls; simpl;
  rewrite ?percent_eq;
  repeat match goal with
  | |- context [if ?b then _ else _] => destruct b; simpl; rewrite ?percent_eq
  | |- context [percent_value ?a ?b] => destruct (percent_value a b); simpl
  end; done.

(** The call raises: an error is yielded, nothing is counted. *)
Lemma item_call_raises total t s text :
  requests_put (calls s) = PutRaises text →
  item total t s
  = (Ok tt, after_calls 1 s,
     [call t; Yield (EError text (track_name t)); Sleep 150]).
Proof. intros H1. run_item. by rewrite H1. Qed.

(** The call returns a response that is not a 429, whatever its status:
    the record is counted. *)
Lemma item_call_returns total t s r :
  requests_put (calls s) = PutReturns r →
  status_code r ≠ 429 →
  item total t s = counted total t (after_calls 1 s) [call t].
Proof.
  intros H1 Hst. run_item. rewrite H1. simpl.
  destruct (status_code r =? 429) eqn:H429; [lia|]. simpl.
  finish_counted.
Qed.

(** The call returns a 429 and the retry raises. *)
Lemma item_retry_raises total t s r ra text :
  requests_put (calls s) = PutReturns r →
  status_code r = 429 →
  retry_after_value (retry_after_header r) = Some ra → sleepable ra = true →
  requests_put (S (calls s)) = PutRaises text →
  item total t s
  = (Ok tt, after_calls 2 s,
     [call t; Yield (ERateLimit ra); Sleep (1000 * ra); call t;
      Yield (EError text (track_name t)); Sleep 150]).
Proof.
  intros H1 Hst Hh Hra H2. run_item_to_sleep. rewrite H1. simpl.
  rewrite Hst. simpl.
  destruct (retry_after_header r); simplify_eq/=.
  all: rewrite ?(sleep_seconds_sleepable _ _ Hra); simpl; by rewrite H2.
Qed.

(** The call returns a 429 and the retry returns a response, whatever its
    status: the record is counted. *)
Lemma item_retry_returns total t s r ra r' :
  requests_put (calls s) = PutReturns r →
  status_code r = 429 →
  retry_after_value (retry_after_header r) = Some ra → sleepable ra = true →
  requests_put (S (calls s)) = PutReturns r' →
  item total t s
  = counted total t (after_calls 2 s)
      [call t; Yield (ERateLimit ra); Sleep (1000 * ra); call t].
Proof.
  intros H1 Hst Hh Hra H2. run_item_to_sleep. rewrite H1. simpl.
  rewrite Hst. simpl.
  destruct (retry_after_header r); simplify_eq/=.
  all: rewrite ?(sleep_seconds_sleepable _ _ Hra); simpl; rewrite H2; simpl;
    finish_counted.
Qed.
End OrderedCases.

(** ** Runs in which the destination answers every call *)

Lemma progress_events_app w1 w2 :
  progress_events (w1 ++ w2) = progress_events w1 ++ progress_events w2.
Proof. unfold progress_events. by rewrite events_app, filter_app. Qed.

Section AnsweredRuns.
Variable requests_put : nat → put_outcome.
Variable access_token : string.
Hypothesis answered : answers_every_call requests_put.

Local Abbreviation item := (ordered_item requests_put access_token).

Lemma item_answered total t s :
  ∃ k w0,
    item total t s = counted total t (after_calls k s) w0 ∧
    progress_events w0 = [].
Proof.
  destruct (answered (calls s)) as (r & H1 & Hh).
  destruct (decide (status_code r = 429)) as [Hst|Hst].
  - destruct (Hh Hst) as (ra & Hra & Hpos).
    destruct (answered (S (calls s))) as (r' & H2 & _).
    eexists 2%nat, _. split; [|shelve].
    by apply (item_retry_returns _ _ _ _ _ r ra r').
    Unshelve. done.
  - eexists 1%nat, _. split; [|shelve].
    by apply (item_call_returns _ _ _ _ _ r).
    Unshelve. done.
Qed.

Lemma answered_loop total l : ∀ s,
  ∃ s' w,
    for_each l (item total) s = (Ok tt, s', w) ∧
    transferred s' = transferred s + Z.of_nat (length l) ∧
    progress_events w = expected_progress total (transferred s) l.
Proof.
  induction l as [|t l IH]; intros s.
  { eexists _, _. split; [reflexivity|]. simpl. split; [lia|done]. }
  destruct (item_answered total t s) as (k & w0 & Hitem & Hw0).
  destruct (IH (TState (tracks_obj s) (transferred s + 1) (k + calls s)))
    as (s' & w & Hloop & Htr & Hpr).
  cbn [for_each]. unfold bind at 1. rewrite Hitem.
  unfold counted, after_calls in *. simpl in *. rewrite Hloop.
  eexists _, _. split; [reflexivity|]. split; [lia|].
  rewrite !progress_events_app, Hw0, Hpr. simpl.
  rewrite <- app_assoc. f_equal.
  destruct (report total t (transferred s + 1)).1; simpl.
  - done.
  - done.
Qed.
End AnsweredRuns.

(** When every call is answered, every record is counted as transferred,
    whatever the statuses of the responses. *)
Lemma answered_run requests_put add access_token tracks :
  answers_every_call requests_put →
  let run := run_transfer requests_put add access_token tracks true in
  let total := Z.of_nat (length tracks) in
  last (events (trace run)) = Some (EComplete total total) ∧
  progress_events (trace run)
  = expected_progress total 0 (py_sorted track_added_at tracks).
Proof.
  intros Hans run total.
  destruct (answered_loop requests_put access_token Hans total
              (py_sorted track_added_at tracks) (TState tracks 0 0))
    as (s' & w & Hloop & Htr & Hpr).
  rewrite py_sorted_length in Htr. simpl in Htr, Hpr.
  assert (run = (Ok tt, s', w ++ [Yield (EComplete total total)])) as ->.
  { unfold run, run_transfer, transfer_tracks, len_tracks, sorted_tracks,
      get_transferred, yield, bind, tell, ret, get; simpl.
    fold total. rewrite Hloop. simpl. by rewrite Htr. }
  unfold trace. simpl. split.
  - rewrite events_app. exact (last_snoc _ _).
  - rewrite progress_events_app, Hpr. exact (app_nil_r _).
Qed.

(** The emission rule of C4 on 95 records: when every call is answered, a
    run over 95 records yields exactly 10 progress events, at 10, 20, ..., 90
    and 95 records, and then [Complete{95, 95}]. *)
Lemma progress_events_of_95 requests_put add access_token tracks :
  answers_every_call requests_put →
  length tracks = 95%nat →
  let run := run_transfer requests_put add access_token tracks true in
  map (λ e, match e with EProgress tr tot pct _ => (tr, tot, pct) | _ => (0, 0, 0) end)
      (progress_events (trace run))
  = [(10, 95, 10); (20, 95, 21); (30, 95, 31); (40, 95, 42); (50, 95, 52);
     (60, 95, 63); (70, 95, 73); (80, 95, 84); (90, 95, 94); (95, 95, 100)] ∧
  length (progress_events (trace run)) = 10%nat ∧
  last (events (trace run)) = Some (EComplete 95 95).
Proof.
  intros Hans Hlen run.
  destruct (answered_run requests_put add access_token tracks Hans) as [Hlast Hpr].
  fold run in Hlast, Hpr. rewrite Hlen in Hlast, Hpr.
  assert (length (py_sorted track_added_at tracks) = 95%nat) as Hs
    by (by rewrite py_sorted_length).
  revert Hpr Hs. generalize (py_sorted track_added_at tracks). intros l Hpr Hs.
  rewrite Hpr. clear Hpr.
  do 95 (destruct l as [|? l]; [done|]).
  destruct l; [|done].
  split_and!; [vm_compute; reflexivity|vm_compute; reflexivity|done].
Qed.

Lemma put_500_answers : answers_every_call put_500.
Proof. intros n. exists (Response 500 HAbsent). split; [done|]. simpl. lia. Qed.

Lemma put_429_answers : answers_every_call put_429.
Proof.
  intros n. exists (Response 429 (HInt 1)). split; [done|].
  intros _. by exists 1.
Qed.

(** C2. An insertion that fails with an HTTP error status is not reported:
    [requests.put] returns the response instead of raising, only the status
    429 is looked at, and the record is counted as transferred.  Against a
    destination that answers 500 to every call, one record gives
    [Progress{1, 1, 100}] and [Complete{1, 1}] with no [Error] event, and any
    snapshot ends in [Complete{total, total}]. *)
Theorem rejected_insertion_is_counted :
  events (trace (run_transfer put_500 add_ok "token" (snapshot_of 1) true))
  = [EProgress 1 1 100 "name0"; EComplete 1 1] ∧
  ∀ tracks,
    last (events (trace (run_transfer put_500 add_ok "token" tracks true)))
    = Some (EComplete (Z.of_nat (length tracks)) (Z.of_nat (length tracks))).
Proof.
  split; [reflexivity|].
  intros tracks.
  by destruct (answered_run put_500 add_ok "token" tracks put_500_answers).
Qed.

(** C3. A retry that is answered by a second 429 does not take the error
    path: the response of the retry is never looked at and the record is
    counted as transferred.  Against a destination that answers 429 to every
    call, one record gives two calls, [RateLimited{1}], [Progress{1, 1, 100}]
    and [Complete{1, 1}], with no [Error] event. *)
Theorem failed_retry_is_counted :
  trace (run_transfer put_429 add_ok "token" (snapshot_of 1) true)
  = [PutTrack "Bearer token" ["id0"]; Yield (ERateLimit 1); Sleep 1000;
     PutTrack "Bearer token" ["id0"]; Divide 1 1;
     Yield (EProgress 1 1 100 "name0"); Sleep 150; Yield (EComplete 1 1)] ∧
  ∀ tracks,
    last (events (trace (run_transfer put_429 add_ok "token" tracks true)))
    = Some (EComplete (Z.of_nat (length tracks)) (Z.of_nat (length tracks))).
Proof.
  split; [reflexivity|].
  intros tracks.
  by destruct (answered_run put_429 add_ok "token" tracks put_429_answers).
Qed.

(** C4. The percent of a progress event is computed in binary64 floating
    point and truncated, which is not always [floor(transferred * 100 /
    total)]: in a run over 500 records that all succeed, the 29th progress
    event, at 290 records, carries 57 and not 58. *)
Theorem percent_is_truncated_float :
  events (trace (run_transfer put_ok add_ok "token" (snapshot_of 500) true))
    !! 28%nat
  = Some (EProgress 290 500 57 "name289") ∧
  290 * 100 / 500 = 58 ∧
  percent_value 290 500 = Ok 57.
Proof. split_and!; vm_compute; reflexivity. Qed.


(** * Further properties *)

(** ** More on the one-by-one loop *)

Lemma pauses_app w1 w2 : pauses (w1 ++ w2) = pauses w1 ++ pauses w2.
Proof. apply omap_app. Qed.

Lemma error_events_app w1 w2 :
  error_events (w1 ++ w2) = error_events w1 ++ error_events w2.
Proof. apply omap_app. Qed.

Lemma complete_events_app w1 w2 :
  complete_events (w1 ++ w2) = complete_events w1 ++ complete_events w2.
Proof. apply omap_app. Qed.

Lemma add_calls_app w1 w2 : add_calls (w1 ++ w2) = add_calls w1 ++ add_calls w2.
Proof. apply omap_app. Qed.

Lemma batch_errors_app w1 w2 :
  batch_errors (w1 ++ w2) = batch_errors w1 ++ batch_errors w2.
Proof. apply omap_app. Qed.

Lemma retry_sleep_is_no_pause (n : Z) : (1000 * n =? 150) = false.
Proof. apply Z.eqb_neq. lia. Qed.

Section OrderedShape.
Variable requests_put : nat → put_outcome.
Variable access_token : string.

Local Abbreviation item := (ordered_item requests_put access_token).

Local Ltac run_cases :=
  repeat (simpl;
    match goal with
    | |- context [requests_put ?n] =>
        destruct (requests_put n) as [[? ?]|?] eqn:?
    | |- context [match ?h with HAbsent => _ | HInt _ => _ | HBad _ => _ end] =>
        destruct h
    | |- context [if ?b then _ else _] => destruct b eqn:?
    | |- context [percent ?a ?b ?s] =>
        rewrite (percent_eq a b s); destruct (percent_value a b)
    end).

(** One iteration: it ends in the one pause it makes, yields at most two
    events, none of them a completion, its errors name the record, and the
    record is counted or reported in an error. *)
Lemma ordered_item_shape total t s :
  ∃ s' w,
    item total t s = (Ok tt, s', w) ∧
    last w = Some (Sleep 150) ∧
    pauses w = [150] ∧
    (length (events w) ≤ 2)%nat ∧
    complete_events w = [] ∧
    Forall (λ m, m.2 = track_name t) (error_events w) ∧
    (transferred s' = transferred s + 1 ∧ (length (error_events w) ≤ 1)%nat ∨
     transferred s' = transferred s ∧ length (error_events w) = 1%nat).
Proof.
  run_item. run_cases.
  all: eexists _, _; split; [reflexivity|].
  all: unfold pauses; simpl; rewrite ?retry_sleep_is_no_pause; simpl.
  all: split_and!; try done; try lia; repeat constructor.
  all: first [left; split; [done|lia] | right; split; [done|lia]].
Qed.
End OrderedShape.

Section OrderedSegments.
Variable requests_put : nat → put_outcome.
Variable access_token : string.

Local Abbreviation item := (ordered_item requests_put access_token).

Lemma ordered_loop_segments total l : ∀ s,
  ∃ s' segs,
    for_each l (item total) s = (Ok tt, s', concat segs) ∧
    Forall2 record_segment l segs ∧
    complete_events (concat segs) = [] ∧
    (length (error_events (concat segs)) ≤ length l)%nat ∧
    transferred s + Z.of_nat (length l)
    ≤ transferred s' + Z.of_nat (length (error_events (concat segs))) ∧
    transferred s' ≤ transferred s + Z.of_nat (length l).
Proof.
  induction l as [|t l IH]; intros s.
  { exists s, []. simpl. split_and!; try done; try lia. }
  destruct (ordered_item_shape requests_put access_token total t s)
    as (s1 & w1 & Hitem & Hlast & Hp & Hev & Hc & Herr & Hcount).
  destruct (ordered_item_spec requests_put access_token total t s)
    as (s1' & w1' & k & Hitem' & _ & Hk & _ & Hcalls & _ & _).
  rewrite Hitem in Hitem'. injection Hitem' as <- <-.
  destruct (IH s1) as (s2 & segs & Hloop & Hsegs & Hc2 & He2 & Hlo & Hhi).
  exists s2, (w1 :: segs).
  cbn [for_each concat]. unfold bind at 1. rewrite Hitem, Hloop.
  rewrite complete_events_app, error_events_app, length_app, Hc, Hc2.
  split_and!; try done.
  - constructor; [|done]. split_and!; try done.
    unfold put_ids. rewrite Hcalls.
    destruct Hk as [->|[-> _]]; [by left|by right].
  - simpl. destruct Hcount as [[_ ?]|[_ ?]]; lia.
  - simpl length. destruct Hcount as [[? _]|[? ?]]; lia.
  - simpl length. destruct Hcount as [[? _]|[? _]]; lia.
Qed.
End OrderedSegments.

Lemma events_concat_bound (segs : list (list action)) :
  Forall (λ seg, (length (events seg) ≤ 2)%nat) segs →
  (length (events (concat segs)) ≤ 2 * length segs)%nat.
Proof.
  induction 1 as [|seg segs Hseg _ IH]; simpl; [done|].
  rewrite events_app, length_app. lia.
Qed.

Lemma pauses_concat (l : list track) (segs : list (list action)) :
  Forall2 record_segment l segs → length (pauses (concat segs)) = length l.
Proof.
  induction 1 as [|t seg l segs (_ & Hp & _) _ IH]; simpl; [done|].
  by rewrite pauses_app, length_app, Hp, IH.
Qed.

(** The trace of a run in ordered mode, record by record. *)
Lemma run_ordered_segments requests_put add access_token tracks :
  let total := Z.of_nat (length tracks) in
  ∃ s segs,
    run_transfer requests_put add access_token tracks true
    = (Ok tt, s, concat segs ++ [Yield (EComplete (transferred s) total)]) ∧
    Forall2 record_segment (py_sorted track_added_at tracks) segs ∧
    complete_events (concat segs) = [] ∧
    (length (error_events (concat segs)) ≤ length tracks)%nat ∧
    total ≤ transferred s + Z.of_nat (length (error_events (concat segs))) ∧
    0 ≤ transferred s ≤ total.
Proof.
  intros total.
  destruct (ordered_loop_segments requests_put access_token total
              (py_sorted track_added_at tracks) (TState tracks 0 0))
    as (s & segs & Hloop & Hsegs & Hc & He & Hlo & Hhi).
  destruct (run_ordered_spec requests_put add access_token tracks)
    as (s0 & w0 & Hrun & _ & _ & _ & _ & Hbounds & _).
  rewrite py_sorted_length in He, Hlo, Hhi. simpl in Hlo, Hhi.
  exists s, segs.
  assert (run_transfer requests_put add access_token tracks true
          = (Ok tt, s, concat segs ++ [Yield (EComplete (transferred s) total)]))
    as Heq.
  { unfold run_transfer, transfer_tracks, len_tracks, sorted_tracks,
      get_transferred, yield, bind, tell, ret, get; simpl.
    fold total. by rewrite Hloop. }
  rewrite Heq in Hrun. injection Hrun as <- _.
  split_and!; try done; lia.
Qed.

Lemma error_names_of_segments (l : list track) (segs : list (list action)) :
  Forall2 record_segment l segs →
  Forall (λ m, m.2 ∈ map track_name l) (error_events (concat segs)).
Proof.
  induction 1 as [|t seg l segs (_ & _ & _ & _ & Herr) _ IH]; simpl.
  { constructor. }
  rewrite error_events_app. apply Forall_app_2.
  - eapply Forall_impl; [exact Herr|]. intros m ->. left.
  - eapply Forall_impl; [exact IH|]. intros m Hm. by right.
Qed.

(** ** More on the batch loop *)

Section BatchCases.
Variable current_user_saved_tracks_add : nat → add_outcome.

Local Abbreviation item := (batch_item current_user_saved_tracks_add).

Local Ltac run_batch :=
  unfold batch_item, batch_try, slice_tracks, try_except, add_tracks,
    next_call, add_transferred, get_transferred, sleep_ms, yield, bind,
    tell, raise, ret, modify, get; simpl.

(** The bulk call returns: the batch is counted. *)
Lemma batch_item_returns total i s :
  current_user_saved_tracks_add (calls s) = AddReturns →
  let batch := slice50 (tracks_obj s) i in
  let tr := transferred s + Z.of_nat (length batch) in
  item total i s
  = (Ok tt, TState (tracks_obj s) tr (S (calls s)),
     [AddTracks (map track_id batch); Divide tr total]
     ++ match percent_value tr total with
        | Ok pct => [Yield (EBatchProgress tr total pct)]
        | Raise e => [Yield (EBatchError (str e) i)]
        end
     ++ [Sleep 500]).
Proof.
  intros Ha batch tr. run_batch. rewrite Ha. simpl.
  rewrite percent_eq. fold (slice50 (tracks_obj s) i). fold batch. fold tr.
  by destruct (percent_value tr total).
Qed.

(** The bulk call raises: an error with the start index of the batch is
    yielded and the batch is not counted. *)
Lemma batch_item_raises total i s e :
  current_user_saved_tracks_add (calls s) = AddRaises e →
  item total i s
  = (Ok tt, TState (tracks_obj s) (transferred s) (S (calls s)),
     [AddTracks (map track_id (slice50 (tracks_obj s) i));
      Yield (EBatchError (str (exn_of_api_error e)) i); Sleep 500]).
Proof. intros Ha. run_batch. by rewrite Ha. Qed.

Lemma batch_loop_exact total idxs : ∀ s,
  ∃ s' w,
    for_each idxs (item total) s = (Ok tt, s', w) ∧
    tracks_obj s' = tracks_obj s ∧
    calls s' = (calls s + length idxs)%nat ∧
    transferred s'
    = transferred s
      + batch_count current_user_saved_tracks_add (tracks_obj s) (calls s) idxs ∧
    add_calls w = map (λ i, map track_id (slice50 (tracks_obj s) i)) idxs ∧
    put_calls w = [] ∧
    complete_events w = [] ∧
    (∀ j i e,
       idxs !! j = Some i →
       current_user_saved_tracks_add (calls s + j)%nat = AddRaises e →
       (str (exn_of_api_error e), i) ∈ batch_errors w).
Proof.
  induction idxs as [|i idxs IH]; intros s.
  { exists s, []. simpl. split_and!; try done; try lia. }
  cbn [for_each batch_count]. unfold bind at 1.
  destruct (current_user_saved_tracks_add (calls s)) as [|e] eqn:Ha.
  - rewrite (batch_item_returns total i s Ha).
    set (s1 := TState _ _ _).
    destruct (IH s1) as (s2 & w2 & -> & Ho & Hc & Ht & Hadd & Hput & Hcomp & Herr).
    eexists _, _. split; [reflexivity|].
    rewrite !add_calls_app, !put_calls_app, !complete_events_app, Hadd, Hput,
      Hcomp.
    subst s1. simpl in *.
    split_and!; try done; try lia.
    + destruct (percent_value _ _); simpl; done.
    + destruct (percent_value _ _); simpl; done.
    + destruct (percent_value _ _); simpl; done.
    + intros [|j] i' e Hj He; simpl in Hj.
      * rewrite Nat.add_0_r, Ha in He. done.
      * rewrite !batch_errors_app. apply elem_of_app. right.
        apply (Herr j); [done|].
        by replace (S (calls s + j))%nat with (calls s + S j)%nat by lia.
  - rewrite (batch_item_raises total i s e Ha).
    set (s1 := TState _ _ _).
    destruct (IH s1) as (s2 & w2 & -> & Ho & Hc & Ht & Hadd & Hput & Hcomp & Herr).
    eexists _, _. split; [reflexivity|].
    subst s1. simpl in *.
    unfold add_calls, put_calls, complete_events in *. simpl.
    split_and!; try done; try lia.
    + by f_equal.
    + intros [|j] i' e' Hj He; simpl in Hj.
      * rewrite Nat.add_0_r, Ha in He. simplify_eq. left.
      * right. apply (Herr j); [done|].
        by replace (S (calls s + j))%nat with (calls s + S j)%nat by lia.
Qed.
End BatchCases.

Lemma slice50_shift (l : list track) (k : nat) :
  slice50 l (50 * Z.of_nat (S k)) = slice50 (drop 50 l) (50 * Z.of_nat k).
Proof.
  unfold slice50. rewrite drop_drop. f_equal. f_equal. lia.
Qed.

(** The slices taken at 0, 50, 100, ... put end to end are the list. *)
Lemma slices_cover (n : nat) : ∀ l : list track,
  (length l ≤ 50 * n)%nat →
  concat (map (λ k, slice50 l (50 * Z.of_nat k)) (seq 0 n)) = l.
Proof.
  induction n as [|n IH]; intros l Hl.
  { destruct l; [done|]. simpl in Hl. lia. }
  cbn [seq map concat]. rewrite <- seq_shift, map_map.
  erewrite map_ext; [|intros k; apply slice50_shift].
  rewrite IH by (rewrite length_drop; lia).
  unfold slice50. simpl. apply take_drop.
Qed.

Lemma py_range_length stop step :
  length (py_range stop step) = Z.to_nat ((stop + step - 1) / step).
Proof. unfold py_range. by rewrite length_map, length_seq. Qed.

Lemma py_range_lookup stop step (j : nat) i :
  py_range stop step !! j = Some i → i = step * Z.of_nat j.
Proof.
  unfold py_range. rewrite list_lookup_fmap. intros Hj.
  destruct (seq 0 _ !! j) as [k|] eqn:Hk; [|done].
  apply lookup_seq in Hk as [-> _]. by simplify_eq/=.
Qed.

Lemma slices_of_range_cover (l : list track) :
  concat (map (slice50 l) (py_range (Z.of_nat (length l)) 50)) = l.
Proof.
  unfold py_range. rewrite map_map. apply slices_cover.
  pose proof (Z.mul_div_le (Z.of_nat (length l) + 50 - 1) 50 eq_refl).
  pose proof (Z.mod_pos_bound (Z.of_nat (length l) + 50 - 1) 50 eq_refl).
  pose proof (Z.div_mod (Z.of_nat (length l) + 50 - 1) 50).
  lia.
Qed.

Lemma slice50_length (l : list track) i :
  0 ≤ i < Z.of_nat (length l) →
  (1 ≤ length (slice50 l i) ≤ 50)%nat.
Proof.
  intros Hi. unfold slice50. rewrite length_take, length_drop. lia.
Qed.

Lemma batch_count_bounds add (l : list track) idxs : ∀ from,
  0 ≤ batch_count add l from idxs
  ≤ Z.of_nat (length (concat (map (slice50 l) idxs))).
Proof.
  induction idxs as [|i idxs IH]; intros from; simpl; [lia|].
  rewrite length_app. specialize (IH (S from)).
  destruct (add from); lia.
Qed.

Lemma batch_count_all_return add (l : list track) idxs : ∀ from,
  (∀ n, add n = AddReturns) →
  batch_count add l from idxs
  = Z.of_nat (length (concat (map (slice50 l) idxs))).
Proof.
  intros from Hall. revert from.
  induction idxs as [|i idxs IH]; intros from; simpl; [done|].
  rewrite length_app, Hall, IH. lia.
Qed.

Lemma batch_count_all_raise add (l : list track) idxs : ∀ from,
  (∀ n, ∃ e, add n = AddRaises e) →
  batch_count add l from idxs = 0.
Proof.
  intros from Hall. revert from.
  induction idxs as [|i idxs IH]; intros from; simpl; [done|].
  destruct (Hall from) as [e ->]. by rewrite IH.
Qed.

(** The trace of a run in batch mode. *)
Lemma run_batch_exact requests_put add access_token tracks :
  let total := Z.of_nat (length tracks) in
  let idxs := py_range total 50 in
  ∃ s w,
    run_transfer requests_put add access_token tracks false
    = (Ok tt, s, w ++ [Yield (EComplete (transferred s) total)]) ∧
    transferred s = batch_count add tracks 0 idxs ∧
    add_calls w = map (λ i, map track_id (slice50 tracks i)) idxs ∧
    put_calls w = [] ∧
    complete_events w = [] ∧
    (∀ j e,
       (j < length idxs)%nat → add j = AddRaises e →
       (str (exn_of_api_error e), 50 * Z.of_nat j) ∈ batch_errors w).
Proof.
  intros total idxs.
  destruct (batch_loop_exact add total idxs (TState tracks 0 0))
    as (s & w & Hloop & _ & _ & Ht & Hadd & Hput & Hcomp & Herr).
  simpl in Ht, Hadd, Herr.
  exists s, w. split_and!; try done; try lia.
  - unfold run_transfer, transfer_tracks, len_tracks, get_transferred, yield,
      bind, tell, ret, get; simpl.
    fold total idxs. by rewrite Hloop.
  - intros j e Hj He.
    destruct (lookup_lt_is_Some_2 idxs j Hj) as [i Hi].
    rewrite <- (py_range_lookup _ _ _ _ Hi). by apply (Herr j).
Qed.

(** ** Further theorems about [transfer_tracks] *)

(** X1. In ordered mode the trace is one segment per record of the sorted
    snapshot, then [Complete]: every record is followed by the 150 ms pause
    before the next record's call, so there are as many pauses as records,
    and a record yields at most two events, so at most [2 * total + 1]
    events are yielded in all. *)
Theorem ordered_run_is_paced requests_put add access_token tracks :
  let w := trace (run_transfer requests_put add access_token tracks true) in
  let total := Z.of_nat (length tracks) in
  (∃ segs tr,
     w = concat segs ++ [Yield (EComplete tr total)] ∧
     Forall2 record_segment (py_sorted track_added_at tracks) segs) ∧
  length (pauses w) = length tracks ∧
  (length (events w) ≤ 2 * length tracks + 1)%nat.
Proof.
  intros w total.
  destruct (run_ordered_segments requests_put add access_token tracks)
    as (s & segs & Hrun & Hsegs & _).
  unfold w, trace. rewrite Hrun. simpl.
  pose proof (Forall2_length _ _ _ Hsegs) as Hlen.
  rewrite py_sorted_length in Hlen.
  split_and!.
  - by exists segs, (transferred s).
  - rewrite pauses_app, length_app, (pauses_concat _ _ Hsegs), py_sorted_length.
    simpl. lia.
  - rewrite events_app, length_app. simpl.
    assert (length (events (concat segs)) ≤ 2 * length segs)%nat; [|lia].
    apply events_concat_bound.
    eapply Forall2_Forall_r; [exact Hsegs|].
    apply Forall_forall. intros t _ seg (_ & _ & _ & Hev & _). done.
Qed.

(** X2. In ordered mode no record is dropped silently: with [transferred]
    the final count, [total <= transferred + number of Error events]; there
    is at most one Error event per record, each names a record of the
    snapshot, and [0 <= transferred <= total]. *)
Theorem every_record_counted_or_reported requests_put add access_token tracks :
  let run := run_transfer requests_put add access_token tracks true in
  let total := Z.of_nat (length tracks) in
  let errors := error_events (trace run) in
  total ≤ transferred (final_state run) + Z.of_nat (length errors) ∧
  (length errors ≤ length tracks)%nat ∧
  0 ≤ transferred (final_state run) ≤ total ∧
  Forall (λ m, m.2 ∈ map track_name tracks) errors.
Proof.
  intros run total errors.
  destruct (run_ordered_segments requests_put add access_token tracks)
    as (s & segs & Hrun & Hsegs & _ & He & Hlo & Hb).
  unfold errors, run, trace, final_state. rewrite Hrun. simpl.
  rewrite error_events_app. simpl. rewrite app_nil_r.
  split_and!; try done; try lia.
  eapply Forall_impl; [exact (error_names_of_segments _ _ Hsegs)|].
  intros m Hm. simpl in Hm.
  by rewrite (py_sorted_perm track_added_at tracks) in Hm.
Qed.

(** X3. In both modes the generator ends with [Complete{transferred, total}]
    and yields no other [Complete]; [total] is the length of the list and
    [0 <= transferred <= total]. *)
Theorem complete_is_last_and_only requests_put add access_token tracks mode :
  let run := run_transfer requests_put add access_token tracks mode in
  let total := Z.of_nat (length tracks) in
  let tr := transferred (final_state run) in
  complete_events (trace run) = [(tr, total)] ∧
  last (trace run) = Some (Yield (EComplete tr total)) ∧
  0 ≤ tr ≤ total.
Proof.
  intros run total tr. unfold tr, run, trace, final_state. destruct mode.
  - destruct (run_ordered_segments requests_put add access_token tracks)
      as (s & segs & -> & _ & Hc & _ & _ & Hb).
    simpl. rewrite complete_events_app, Hc, last_snoc. done.
  - destruct (run_batch_exact requests_put add access_token tracks)
      as (s & w & -> & Ht & _ & _ & Hc & _).
    simpl. rewrite complete_events_app, Hc, last_snoc.
    split_and!; try done.
    + rewrite Ht. apply batch_count_bounds.
    + rewrite Ht.
      pose proof (batch_count_bounds add tracks
                    (py_range (Z.of_nat (length tracks)) 50) 0) as Hb.
      rewrite slices_of_range_cover in Hb. lia.
Qed.

Lemma unreachable_loop requests_put access_token text total l : ∀ s,
  (∀ n, requests_put n = PutRaises (text n)) →
  ∃ s' w,
    for_each l (ordered_item requests_put access_token total) s = (Ok tt, s', w) ∧
    transferred s' = transferred s ∧
    events w = imap (λ i t, EError (text (calls s + i)%nat) (track_name t)) l ∧
    put_ids w = map track_id l.
Proof.
  intros s Hdown. revert s.
  induction l as [|t l IH]; intros s.
  { by exists s, []. }
  destruct (IH (after_calls 1 s)) as (s' & w & Hloop & Htr & Hev & Hput).
  cbn [for_each]. unfold bind at 1.
  rewrite (item_call_raises _ _ total t s _ (Hdown (calls s))), Hloop.
  eexists _, _. split; [reflexivity|].
  rewrite events_app, put_ids_app, Hev, Hput. simpl.
  split_and!; [done| |done].
  rewrite Nat.add_0_r. f_equal.
  apply imap_ext. intros i t' _. simpl. do 2 f_equal. lia.
Qed.

(** X4. When the destination cannot be reached, so that every call raises,
    ordered mode still visits every record once, in sorted order, yields one
    [Error] per record with the text of the exception and the name of the
    record, retries nothing, and ends with [Complete{0, total}]. *)
Theorem nothing_transferred_when_every_call_raises
    requests_put add access_token text tracks :
  (∀ n, requests_put n = PutRaises (text n)) →
  let w := trace (run_transfer requests_put add access_token tracks true) in
  let tracks_sorted := py_sorted track_added_at tracks in
  events w
  = imap (λ i t, EError (text i) (track_name t)) tracks_sorted
    ++ [EComplete 0 (Z.of_nat (length tracks))] ∧
  put_ids w = map track_id tracks_sorted.
Proof.
  intros Hdown w tracks_sorted.
  destruct (unreachable_loop requests_put access_token text
              (Z.of_nat (length tracks)) tracks_sorted (TState tracks 0 0) Hdown)
    as (s' & w' & Hloop & Htr & Hev & Hput).
  simpl in Htr, Hev.
  assert (w = w' ++ [Yield (EComplete 0 (Z.of_nat (length tracks)))]) as ->.
  { unfold w, trace, run_transfer, transfer_tracks, len_tracks, sorted_tracks,
      get_transferred, yield, bind, tell, ret, get; simpl.
    fold tracks_sorted. rewrite Hloop. simpl. by rewrite Htr. }
  rewrite events_app, put_ids_app, Hev, Hput. simpl.
  by rewrite app_nil_r.
Qed.

Lemma nothing_transferred_when_every_call_raises_witness :
  events (trace (run_transfer put_down add_ok "token" snapshot3 true))
  = [EError "connection error 0" "name1"; EError "connection error 1" "name2";
     EError "connection error 2" "name3"; EComplete 0 3].
Proof.
  destruct (nothing_transferred_when_every_call_raises put_down add_ok "token"
              (λ n, "connection error " +:+ pretty n) snapshot3) as [Hev _].
  - intros n. reflexivity.
  - rewrite Hev. reflexivity.
Defined.

(** X5. In batch mode the bulk calls carry the ids of the snapshot in its own
    order (nothing is sorted), cut into consecutive batches of at most 50 and
    at least 1 id: [ceil(total / 50)] calls, whether or not some of them
    fail, and no single-item call. *)
Theorem batch_calls_partition_snapshot requests_put add access_token tracks :
  let w := trace (run_transfer requests_put add access_token tracks false) in
  let total := Z.of_nat (length tracks) in
  concat (add_calls w) = map track_id tracks ∧
  Forall (λ ids, (1 ≤ length ids ≤ 50)%nat) (add_calls w) ∧
  length (add_calls w) = Z.to_nat ((total + 49) / 50) ∧
  put_calls w = [].
Proof.
  intros w total.
  destruct (run_batch_exact requests_put add access_token tracks)
    as (s & w' & Hrun & _ & Hadd & Hput & _).
  unfold w, trace. rewrite Hrun. simpl.
  rewrite add_calls_app, put_calls_app, Hadd, Hput. simpl.
  rewrite !app_nil_r.
  split_and!; [| | |done].
  - rewrite <- (map_map (slice50 tracks) (map track_id)), <- concat_map.
    by rewrite slices_of_range_cover.
  - apply Forall_forall. intros ids Hin.
    apply list_elem_of_In, in_map_iff in Hin as (i & <- & Hi).
    rewrite length_map. apply slice50_length.
    apply list_elem_of_In in Hi. by apply py_range_bounds in Hi.
  - rewrite length_map, py_range_length. fold total. f_equal. f_equal. lia.
Qed.

(** X6. In batch mode a batch is counted exactly when its bulk call returns:
    the final [transferred] is the number of records in the batches whose
    call returned, hence [total] when every call returns and 0 when every
    call raises; a call that raises is reported in a batch [Error] carrying
    the text of the exception and the start index of the batch, and the
    loop goes on with the next batch. *)
Theorem batch_failures_are_not_counted requests_put add access_token tracks :
  let run := run_transfer requests_put add access_token tracks false in
  let total := Z.of_nat (length tracks) in
  let idxs := py_range total 50 in
  transferred (final_state run) = batch_count add tracks 0 idxs ∧
  ((∀ n, add n = AddReturns) → transferred (final_state run) = total) ∧
  ((∀ n, ∃ e, add n = AddRaises e) → transferred (final_state run) = 0) ∧
  (∀ j e,
     (j < length idxs)%nat → add j = AddRaises e →
     (str (exn_of_api_error e), 50 * Z.of_nat j) ∈ batch_errors (trace run)).
Proof.
  intros run total idxs.
  destruct (run_batch_exact requests_put add access_token tracks)
    as (s & w & Hrun & Ht & _ & _ & _ & Herr).
  unfold run, trace, final_state. rewrite Hrun. simpl.
  split_and!.
  - done.
  - intros Hall. rewrite Ht, batch_count_all_return by done.
    by rewrite slices_of_range_cover.
  - intros Hall. rewrite Ht. by apply batch_count_all_raise.
  - intros j e Hj He. rewrite batch_errors_app. apply elem_of_app. left.
    by apply Herr.
Qed.

Lemma batch_failures_are_not_counted_witness :
  transferred (final_state
    (run_transfer put_ok add_fails_second "token" (snapshot_of 120) false)) = 70 ∧
  ("bad gateway", 50)
  ∈ batch_errors (trace
      (run_transfer put_ok add_fails_second "token" (snapshot_of 120) false)).
Proof.
  destruct (batch_failures_are_not_counted put_ok add_fails_second "token"
              (snapshot_of 120)) as (Hcount & _ & _ & Herr).
  split.
  - rewrite Hcount. vm_compute. reflexivity.
  - apply (Herr 1%nat (HttpError 502 HAbsent "bad gateway")).
    + vm_compute. lia.
    + reflexivity.
Defined.

(** ** Further theorems about [get_all_saved_tracks] *)

Lemma pages_with_items_cons a rest :
  pages_with_items (a :: rest)
  = (match a with
     | FetchReturns (Page _ (_ :: _)) => 1
     | _ => 0
     end + pages_with_items rest)%nat.
Proof.
  unfold pages_with_items, pages. simpl.
  destruct a as [[tot [|item items]]|e]; simpl; done.
Qed.

Lemma expected_fetched_known off T answers :
  expected_fetched off (Some T) answers
  = map (λ k, (Z.min (off + 50 * Z.of_nat k) T, T))
        (seq 1 (pages_with_items answers)).
Proof.
  revert off. induction answers as [|a rest IH]; intros off; [done|].
  cbn [expected_fetched]. rewrite pages_with_items_cons.
  destruct a as [[tot [|item items]]|e]; simpl next_offset; simpl next_total;
    simpl default; rewrite IH; simpl; try done.
  f_equal.
  rewrite <- (seq_shift _ 1), map_map. apply map_ext. intros k.
  f_equal. f_equal. lia.
Qed.

Lemma expected_fetched_unknown off answers :
  expected_fetched off None answers
  = match pages answers with
    | [] => []
    | p0 :: _ =>
        map (λ k, (Z.min (off + 50 * Z.of_nat k) (page_total p0), page_total p0))
            (seq 1 (pages_with_items answers))
    end.
Proof.
  induction answers as [|a rest IH]; [done|].
  cbn [expected_fetched]. rewrite pages_with_items_cons.
  destruct a as [[tot [|item items]]|e]; simpl next_offset; simpl next_total;
    simpl default.
  - rewrite expected_fetched_known. done.
  - rewrite expected_fetched_known. simpl.
    f_equal.
    rewrite <- (seq_shift _ 1), map_map. apply map_ext. intros k.
    f_equal. f_equal. lia.
  - rewrite IH. done.
Qed.

(** X7. The progress of an extraction is counted in pages: the k-th
    [Progress] event carries [fetched = min(50 * k, total)], where [total] is
    the total of the first page received, also when later pages report
    another one; so [fetched] never exceeds [total] and never decreases, and
    there is one such event per page with items. *)
Theorem fetched_progress_closed_form oracle fuel :
  let run := get_all_saved_tracks oracle fuel in
  let ans := answers_from oracle 0 (fetches (final_state run)) in
  (pages ans = [] → fetched_events (trace run) = []) ∧
  (∀ p0 ps, pages ans = p0 :: ps →
     fetched_events (trace run)
     = map (λ k, (Z.min (50 * Z.of_nat k) (page_total p0), page_total p0))
           (seq 1 (pages_with_items ans)) ∧
     Forall (λ ft, ft.1 ≤ ft.2 ∧ ft.2 = page_total p0) (fetched_events (trace run))).
Proof.
  intros run ans.
  destruct (run_closed_form oracle fuel) as (_ & Ht & _).
  fold run in Ht. fold ans in Ht.
  rewrite Ht, fetched_events_expected, expected_fetched_unknown.
  split.
  - by intros ->.
  - intros p0 ps ->. split; [done|].
    apply Forall_forall. intros ft Hin.
    apply list_elem_of_In, in_map_iff in Hin as (k & <- & _). simpl. lia.
Qed.

Lemma fetched_progress_closed_form_witness :
  fetched_events (trace (get_all_saved_tracks api_one_page 10)) = [(3, 3)].
Proof.
  destruct (fetched_progress_closed_form api_one_page 10) as [_ Hform].
  destruct (Hform (Page 3 [sample_item "1"; ApiItem None "2024-01-02T10:00:00Z";
                           sample_item "3"])
                  [Page 3 []]) as [Heq _].
  - reflexivity.
  - rewrite Heq. reflexivity.
Defined.

Lemma expected_segment_actions off T a :
  Forall extraction_action (expected_segment off T a).
Proof.
  unfold expected_segment. constructor; [done|].
  destruct a as [[tot items]|[st h text|text]].
  - apply Forall_app_2; [by destruct T; repeat constructor|].
    destruct items as [|item items]; [constructor|].
    apply Forall_app_2; [|by repeat constructor].
    apply Forall_forall. intros x Hx.
    apply list_elem_of_In, in_map_iff in Hx as (t & <- & _). done.
  - destruct (st =? 429); [|constructor].
    destruct (retry_after_value h) as [n|]; [|constructor].
    destruct (sleepable n); by repeat constructor.
  - constructor.
Qed.

(** X8. An extraction only reads: whatever the source answers, the generator
    requests pages, sleeps, and yields rate limits, the total, tracks and
    fetch progress; it makes no call that writes to a library and yields no
    [Complete] or [Error] event of its own. *)
Theorem extraction_only_reads oracle fuel :
  Forall extraction_action (trace (get_all_saved_tracks oracle fuel)).
Proof.
  destruct (run_closed_form oracle fuel) as (_ & -> & _).
  generalize (answers_from oracle 0
                (fetches (final_state (get_all_saved_tracks oracle fuel)))).
  generalize 0 at 1. generalize (@None Z).
  intros T off l. revert T off.
  induction l as [|a rest IH]; intros T off; [constructor|].
  cbn [expected_trace].
  apply Forall_app_2; [apply expected_segment_actions|apply IH].
Qed.

(** X9. The ids of the extracted records are the ids of the items with a
    track, page after page; when the source returns no track id twice across
    the pages, no id occurs twice in the extracted records. *)
Theorem extracted_ids_are_unique oracle fuel :
  let run := get_all_saved_tracks oracle fuel in
  let ans := answers_from oracle 0 (fetches (final_state run)) in
  let api_ids := map api_id (omap item_track (flat_map page_items (pages ans))) in
  map track_id (track_events (trace run)) = api_ids ∧
  (NoDup api_ids → NoDup (map track_id (track_events (trace run)))).
Proof.
  intros run ans api_ids.
  destruct (run_closed_form oracle fuel) as (_ & Ht & _).
  fold run in Ht. fold ans in Ht.
  assert (map track_id (track_events (trace run)) = api_ids) as Heq.
  { rewrite Ht, track_events_expected, tracks_of_items_flat_map.
    unfold api_ids, tracks_of_items.
    induction (flat_map page_items (pages ans)) as [|item items IH]; [done|].
    simpl. destruct (item_track item) as [t|]; simpl; [f_equal|]; exact IH. }
  split; [done|]. by rewrite Heq.
Qed.

Lemma extracted_ids_are_unique_witness :
  NoDup (map track_id (track_events (trace (get_all_saved_tracks api_one_page 10)))).
Proof.
  destruct (extracted_ids_are_unique api_one_page 10) as [_ Hnodup].
  apply Hnodup.
  apply (bool_decide_unpack (NoDup _)). vm_compute. exact I.
Defined.

(** ** [app.py]: streaming an extraction and a transfer *)


Lemma token_is_truthy (t : gmap string string) token :
  t !! "access_token" = Some token → truthy (Some (SToken t)) = true.
Proof.
  intros Ht. simpl. apply negb_true_iff, bool_decide_eq_false.
  intros ->. by rewrite lookup_empty in Ht.
Qed.

Lemma client_of_token (t : gmap string string) token :
  t !! "access_token" = Some token → get_spotify_client (SToken t) = inr token.
Proof. intros Ht. simpl. by rewrite Ht. Qed.








(** ** [app.py]: connecting an account *)

Lemma length_append (a b : string) :
  String.length (a +:+ b) = (String.length a + String.length b)%nat.
Proof. induction a as [|c a IH]; simpl; [done|by rewrite IH]. Qed.

(** Two strings that end in suffixes of the same length are equal only if
    the suffixes are. *)
Lemma append_suffix_inj (a b x y : string) :
  String.length x = String.length y → a +:+ x = b +:+ y → a = b ∧ x = y.
Proof.
  intros Hlen. revert b. induction a as [|c a IH]; intros [|d b] Heq; simpl in *.
  - done.
  - apply (f_equal String.length) in Heq. simpl in Heq.
    rewrite ?length_append in Heq. simpl in Heq. lia.
  - apply (f_equal String.length) in Heq. simpl in Heq.
    rewrite ?length_append in Heq. simpl in Heq. lia.
  - injection Heq as -> Heq. destruct (IH _ Heq) as [-> ->]. done.
Qed.

Lemma token_key_inj (a b : string) : a +:+ "_token" = b +:+ "_token" → a = b.
Proof. intros H. by apply append_suffix_inj in H as [-> _]. Qed.

Lemma user_key_inj (a b : string) : a +:+ "_user" = b +:+ "_user" → a = b.
Proof. intros H. by apply append_suffix_inj in H as [-> _]. Qed.

Lemma append_assoc (a b c : string) : (a +:+ b) +:+ c = a +:+ (b +:+ c).
Proof.
  induction a as [|x a IH]; [done|].
  change (String x ((a +:+ b) +:+ c) = String x (a +:+ (b +:+ c))).
  by rewrite IH.
Qed.

Lemma token_key_not_user (a b : string) : a +:+ "_token" ≠ b +:+ "_user".
Proof.
  intros H.
  assert (a +:+ "_token" = (a +:+ "_") +:+ "token") as Ha
    by (symmetry; apply (append_assoc a "_" "token")).
  rewrite Ha in H. by apply append_suffix_inj in H as [_ ?].
Qed.

Lemma token_key_not_state (a : string) : a +:+ "_token" ≠ "oauth_state".
Proof.
  intros H. change "oauth_state" with ("oauth" +:+ "_state") in H.
  by apply append_suffix_inj in H as [_ ?].
Qed.

Lemma user_key_not_state (a : string) : a +:+ "_user" ≠ "oauth_state".
Proof.
  intros H. change "oauth_state" with ("oauth_" +:+ "state") in H.
  by apply append_suffix_inj in H as [_ ?].
Qed.

Lemma token_key_not_tracks (a : string) : a +:+ "_token" ≠ "tracks".
Proof.
  intros H. change "tracks" with ("" +:+ "tracks") in H.
  by apply append_suffix_inj in H as [_ ?].
Qed.

Lemma user_key_not_tracks (a : string) : a +:+ "_user" ≠ "tracks".
Proof.
  intros H. change "tracks" with ("t" +:+ "racks") in H.
  by apply append_suffix_inj in H as [_ ?].
Qed.

(** A request that passes the state check and whose calls all succeed. *)
Lemma callback_accepted gat cu code state expected w t fs token user info :
  default (SStr "") (session w !! "oauth_state") = SStr expected →
  state ≠ "" →
  startswith state (before_colon expected) = true →
  gat (get_oauth_manager (environ w) (before_colon state)) code (files w)
  = (inr t, fs) →
  t !! "access_token" = Some token →
  cu token = inr user →
  user_info_of user = inr info →
  let account_type := before_colon state in
  let session1 :=
    <[account_type +:+ "_user" := SUser info]>
      (<[account_type +:+ "_token" := SToken t]> (session w)) in
  callback gat cu code (Some state) None w
  = if String.eqb account_type "source" then
      (Redirect "fetch_tracks", World (delete "tracks" session1) fs (environ w))
    else (Redirect "transfer", World session1 fs (environ w)).
Proof.
  intros Hexp Hne Hstart Hgat Ht Hcu Hinfo account_type session1.
  unfold callback. simpl.
  apply String.eqb_neq in Hne. rewrite Hne, Hexp, Hstart. simpl.
  rewrite Hgat. simpl. rewrite Ht, Hcu, Hinfo. done.
Qed.

(** The two ways a [callback] can end. *)
Lemma callback_cases gat cu code state error w :
  let r := callback gat cu code state error w in
  let account_type := before_colon (default "" state) in
  (session r.2 = session w ∧ ∀ endpoint, r.1 ≠ Redirect endpoint) ∨
  (∃ t token info,
     t !! "access_token" = Some token ∧
     let session1 :=
       <[account_type +:+ "_user" := SUser info]>
         (<[account_type +:+ "_token" := SToken t]> (session w)) in
     (session r.2 = session1 ∨ session r.2 = delete "tracks" session1) ∧
     ∃ endpoint, r.1 = Redirect endpoint).
Proof.
  intros r account_type. unfold r, callback.
  destruct (negb (String.eqb (default "" error) "")); [by left|].
  destruct (String.eqb (default "" state) ""); [by left|].
  destruct (default (SStr "") (session w !! "oauth_state"))
    as [expected|?|?|?]; try by left.
  destruct (negb (startswith _ _)); [by left|].
  destruct (gat _ _ _) as [[e|t] fs]; [by left|].
  simpl. destruct (t !! "access_token") as [token|] eqn:Ht; [|by left].
  destruct (cu token) as [e|user]; [by left|].
  destruct (user_info_of user) as [e|info]; [by left|].
  right. exists t, token, info. split; [done|].
  fold account_type.
  destruct (String.eqb account_type "source"); simpl; eauto.
Qed.

(** X13. [callback] compares the [state] of the request with the pending
    state only up to the first colon of the pending one: a state that starts
    with that prefix is accepted whatever follows it, and any non-empty
    state is when no login is pending.  When the exchange and the profile
    request then succeed, the token and the user are stored under the
    account type read from the request's own state, the answer redirects to
    the next page, and the pending state stays in the session. *)
Theorem callback_compares_the_prefix_only
    gat cu code state expected w t fs token user info :
  default (SStr "") (session w !! "oauth_state") = SStr expected →
  state ≠ "" →
  startswith state (before_colon expected) = true →
  gat (get_oauth_manager (environ w) (before_colon state)) code (files w)
  = (inr t, fs) →
  t !! "access_token" = Some token →
  cu token = inr user →
  user_info_of user = inr info →
  let account_type := before_colon state in
  let r := callback gat cu code (Some state) None w in
  r.1 = Redirect (if String.eqb account_type "source"
                  then "fetch_tracks" else "transfer") ∧
  session r.2 !! (account_type +:+ "_token") = Some (SToken t) ∧
  session r.2 !! (account_type +:+ "_user") = Some (SUser info) ∧
  session r.2 !! "oauth_state" = session w !! "oauth_state" ∧
  files r.2 = fs.
Proof.
  intros Hexp Hne Hstart Hgat Ht Hcu Hinfo account_type r.
  unfold r.
  rewrite (callback_accepted gat cu code state expected w t fs token user info)
    by done.
  fold account_type.
  assert (account_type +:+ "_user" ≠ account_type +:+ "_token") as Hut.
  { intros H. symmetry in H. by apply token_key_not_user in H. }
  destruct (String.eqb account_type "source"); simpl; split_and!; try done.
  - rewrite lookup_delete_ne by (intros H; symmetry in H;
                                 by apply token_key_not_tracks in H).
    by rewrite lookup_insert_ne, lookup_insert_eq.
  - rewrite lookup_delete_ne by (intros H; symmetry in H;
                                 by apply user_key_not_tracks in H).
    by rewrite lookup_insert_eq.
  - rewrite lookup_delete_ne by done.
    rewrite lookup_insert_ne by apply user_key_not_state.
    by rewrite lookup_insert_ne by apply token_key_not_state.
  - by rewrite lookup_insert_ne, lookup_insert_eq.
  - by rewrite lookup_insert_eq.
  - rewrite lookup_insert_ne by apply user_key_not_state.
    by rewrite lookup_insert_ne by apply token_key_not_state.
Qed.

Lemma callback_compares_the_prefix_only_witness :
  (callback exchange_ok user_ok (Some "c0de") (Some "source:forged") None
            login_pending).1
  = Redirect "fetch_tracks".
Proof.
  refine (proj1 (callback_compares_the_prefix_only
                   exchange_ok user_ok (Some "c0de") "source:forged"
                   "source:0123abcd" login_pending
                   {["access_token" := "token-of-c0de"]}
                   {[".cache-source" := Text "token"]}
                   "token-of-c0de" sample_user
                   (UserInfo (Some "Ann") (Some "ann") None)
                   _ _ _ _ _ _ _)).
  - reflexivity.
  - discriminate.
  - reflexivity.
  - reflexivity.
  - reflexivity.
  - reflexivity.
  - reflexivity.
Defined.

(** X14. [callback] stores an account whole or not at all: either it
    redirects, and the session then holds the token, with its
    [access_token], and the user under the account type of the request's
    state; or it answers with an error and the session is as it was. *)
Theorem callback_all_or_nothing gat cu code state error w :
  let r := callback gat cu code state error w in
  let account_type := before_colon (default "" state) in
  ((∀ endpoint, r.1 ≠ Redirect endpoint) ∧ session r.2 = session w) ∨
  ((∃ endpoint, r.1 = Redirect endpoint) ∧
   ∃ t info,
     session r.2 !! (account_type +:+ "_token") = Some (SToken t) ∧
     is_Some (t !! "access_token") ∧
     session r.2 !! (account_type +:+ "_user") = Some (SUser info)).
Proof.
  intros r account_type.
  destruct (callback_cases gat cu code state error w)
    as [[Hs Hr]|(t & token & info & Ht & Hs & Hr)]; [by left|].
  right. split; [done|]. exists t, info. fold r account_type in Hs.
  assert (account_type +:+ "_user" ≠ account_type +:+ "_token") as Hut.
  { intros H. symmetry in H. by apply token_key_not_user in H. }
  destruct Hs as [-> | ->]; split_and!; eauto.
  - by rewrite lookup_insert_ne, lookup_insert_eq.
  - by rewrite lookup_insert_eq.
  - rewrite lookup_delete_ne by (intros H; symmetry in H;
                                 by apply token_key_not_tracks in H).
    by rewrite lookup_insert_ne, lookup_insert_eq.
  - rewrite lookup_delete_ne by (intros H; symmetry in H;
                                 by apply user_key_not_tracks in H).
    by rewrite lookup_insert_eq.
Qed.

(** X15. The connection of an account, from [login] to [callback]: for
    [source] and for [dest], when the accounts service hands out the
    authorisation URL and [callback] is requested with the state that
    [login] made, the token is exchanged through a manager for the same
    account type, the token and the user are stored under that account, the
    entries of every other account are left as they were, and the answer
    redirects to the page of the next step. *)
Theorem login_then_callback
    gau gat cu account_type nonce code w url t fs token user info :
  account_type = "source" ∨ account_type = "dest" →
  gau (get_oauth_manager (environ w) account_type)
      (account_type +:+ ":" +:+ nonce) = inr url →
  gat (get_oauth_manager (environ w) account_type) code (files w) = (inr t, fs) →
  t !! "access_token" = Some token →
  cu token = inr user →
  user_info_of user = inr info →
  let l := login gau account_type nonce w in
  let r := callback gat cu code (Some (account_type +:+ ":" +:+ nonce)) None l.2 in
  l.1 = RedirectUrl url ∧
  r.1 = Redirect (if String.eqb account_type "source"
                  then "fetch_tracks" else "transfer") ∧
  session r.2 !! (account_type +:+ "_token") = Some (SToken t) ∧
  session r.2 !! (account_type +:+ "_user") = Some (SUser info) ∧
  (∀ other, other ≠ account_type →
     session r.2 !! (other +:+ "_token") = session w !! (other +:+ "_token") ∧
     session r.2 !! (other +:+ "_user") = session w !! (other +:+ "_user")) ∧
  files r.2 = fs.
Proof.
  intros Ha Hgau Hgat Ht Hcu Hinfo l r.
  set (state := account_type +:+ ":" +:+ nonce) in *.
  assert (before_colon state = account_type) as Hbefore
    by (destruct Ha as [-> | ->]; reflexivity).
  assert (startswith state account_type = true) as Hstarts
    by (destruct Ha as [-> | ->]; reflexivity).
  assert (state ≠ "") as Hne by (destruct Ha as [-> | ->]; discriminate).
  assert (l = (RedirectUrl url,
               World (<["oauth_state" := SStr state]> (session w))
                     (files w) (environ w))) as Hl.
  { unfold l, login. fold state. rewrite Hgau.
    by destruct Ha as [-> | ->]. }
  assert (account_type +:+ "_user" ≠ account_type +:+ "_token") as Hut.
  { intros H. symmetry in H. by apply token_key_not_user in H. }
  unfold r. rewrite Hl. simpl.
  rewrite (callback_accepted gat cu code state state _ t fs token user info);
    simpl; rewrite ?Hbefore; try done; [|by rewrite lookup_insert_eq].
  assert (∀ sess : gmap string svalue,
            <[account_type +:+ "_user" := SUser info]>
              (<[account_type +:+ "_token" := SToken t]> sess)
            !! (account_type +:+ "_token") = Some (SToken t)) as Htoken.
  { intros sess. by rewrite lookup_insert_ne, lookup_insert_eq. }
  assert (∀ (sess : gmap string svalue) other, other ≠ account_type →
            <[account_type +:+ "_user" := SUser info]>
              (<[account_type +:+ "_token" := SToken t]>
                 (<["oauth_state" := SStr state]> sess))
            !! (other +:+ "_token") = sess !! (other +:+ "_token")) as Hother_token.
  { intros sess other Hother.
    rewrite lookup_insert_ne
      by (intros H; symmetry in H; by apply token_key_not_user in H).
    rewrite lookup_insert_ne by (intros H; by apply token_key_inj in H).
    rewrite lookup_insert_ne
      by (intros H; symmetry in H; by apply token_key_not_state in H).
    done. }
  assert (∀ (sess : gmap string svalue) other, other ≠ account_type →
            <[account_type +:+ "_user" := SUser info]>
              (<[account_type +:+ "_token" := SToken t]>
                 (<["oauth_state" := SStr state]> sess))
            !! (other +:+ "_user") = sess !! (other +:+ "_user")) as Hother_user.
  { intros sess other Hother.
    rewrite lookup_insert_ne by (intros H; by apply user_key_inj in H).
    rewrite lookup_insert_ne by apply token_key_not_user.
    rewrite lookup_insert_ne
      by (intros H; symmetry in H; by apply user_key_not_state in H).
    done. }
  destruct (String.eqb account_type "source"); simpl; split_and!; try done.
  - rewrite lookup_delete_ne by (intros H; symmetry in H;
                                 by apply token_key_not_tracks in H).
    apply Htoken.
  - rewrite lookup_delete_ne by (intros H; symmetry in H;
                                 by apply user_key_not_tracks in H).
    by rewrite lookup_insert_eq.
  - intros other Hother.
    rewrite !lookup_delete_ne; eauto.
    + intros H; symmetry in H; by apply user_key_not_tracks in H.
    + intros H; symmetry in H; by apply token_key_not_tracks in H.
  - by rewrite lookup_insert_eq.
  - eauto.
Qed.

Lemma login_then_callback_witness :
  let w := (login authorize_ok "dest" "0123abcd" connected).2 in
  session (callback exchange_ok user_ok (Some "c0de") (Some "dest:0123abcd") None w).2
    !! "dest_token"
  = Some (SToken {["access_token" := "token-of-c0de"]}).
Proof.
  refine (proj1 (proj2 (proj2 (login_then_callback
                   authorize_ok exchange_ok user_ok "dest" "0123abcd"
                   (Some "c0de") connected
                   "https://accounts.spotify.com/authorize?state=dest:0123abcd"
                   {["access_token" := "token-of-c0de"]}
                   {[".cache-dest" := Text "token"]}
                   "token-of-c0de" sample_user
                   (UserInfo (Some "Ann") (Some "ann") None)
                   _ _ _ _ _ _)))).
  - by right.
  - reflexivity.
  - reflexivity.
  - reflexivity.
  - reflexivity.
  - reflexivity.
Defined.

(** ** [app.py]: starting over *)

(** X16. After [reset] nothing of the connected accounts is left: the token
    caches of the managers of both accounts and the track cache are gone,
    every other file and the environment are as they were, the pages of the
    transfer redirect to the home page, and both streams answer 401. *)
Theorem reset_disconnects w :
  let w' := (reset w).2 in
  files w' !! cache_path (get_oauth_manager (environ w) "source") = None ∧
  files w' !! cache_path (get_oauth_manager (environ w) "dest") = None ∧
  load_tracks (files w') = inl (FileNotFoundError ".tracks_cache.json") ∧
  (∀ path, path ∉ [".cache-source"; ".cache-dest"; ".tracks_cache.json"] →
           files w' !! path = files w !! path) ∧
  environ w' = environ w ∧
  (fetch_tracks w').1 = Redirect "index" ∧
  (show_tracks w').1 = Redirect "index" ∧
  (transfer w').1 = Redirect "index" ∧
  (∀ oracle fuel, (fetch_stream oracle fuel w').1 = Plain "No source token" 401) ∧
  (∀ requests_put add,
     (transfer_stream requests_put add w').1 = Plain "No destination token" 401).
Proof.
  intros w'. unfold w', reset. simpl. split_and!; try done.
  - by rewrite lookup_delete_eq.
  - by rewrite lookup_delete_ne, lookup_delete_eq.
  - unfold load_tracks.
    rewrite lookup_delete_ne by done. rewrite lookup_delete_ne by done.
    by rewrite lookup_delete_eq.
  - intros path Hpath. rewrite !not_elem_of_cons in Hpath.
    destruct Hpath as (H1 & H2 & H3 & _).
    by rewrite !lookup_delete_ne.
Qed.

(** ** [app.py]: the sessions the routes can produce *)

Lemma session_ok_empty : session_ok ∅.
Proof.
  split_and!; [done| |].
  - intros v. by rewrite lookup_empty.
  - intros a. unfold account_stored. by rewrite !lookup_empty.
Qed.

Lemma session_ok_login sess state :
  session_ok sess → session_ok (<["oauth_state" := SStr state]> sess).
Proof.
  intros (Ht & Hs & Ha). split_and!.
  - by rewrite lookup_insert_ne.
  - intros v. rewrite lookup_insert_eq. intros [= <-]. eauto.
  - intros a. unfold account_stored.
    rewrite lookup_insert_ne
      by (intros H; symmetry in H; by apply token_key_not_state in H).
    rewrite lookup_insert_ne
      by (intros H; symmetry in H; by apply user_key_not_state in H).
    apply Ha.
Qed.

Lemma session_ok_stored sess a (t : gmap string string) token info :
  session_ok sess →
  t !! "access_token" = Some token →
  session_ok (<[a +:+ "_user" := SUser info]> (<[a +:+ "_token" := SToken t]> sess)).
Proof.
  intros (Ht & Hs & Ha) Htoken. split_and!.
  - rewrite lookup_insert_ne by apply user_key_not_tracks.
    by rewrite lookup_insert_ne by apply token_key_not_tracks.
  - intros v.
    rewrite lookup_insert_ne by apply user_key_not_state.
    rewrite lookup_insert_ne by apply token_key_not_state.
    apply Hs.
  - intros b. unfold account_stored.
    rewrite (lookup_insert_ne _ (a +:+ "_user") (b +:+ "_token"))
      by (intros H; symmetry in H; by apply token_key_not_user in H).
    destruct (decide (a = b)) as [<-|Hne].
    + rewrite !lookup_insert_eq. eauto.
    + rewrite (lookup_insert_ne _ (a +:+ "_token") (b +:+ "_token"))
        by (intros H; by apply token_key_inj in H).
      rewrite (lookup_insert_ne _ (a +:+ "_user") (b +:+ "_user"))
        by (intros H; by apply user_key_inj in H).
      rewrite (lookup_insert_ne _ (a +:+ "_token") (b +:+ "_user"))
        by apply token_key_not_user.
      apply Ha.
Qed.

Lemma session_ok_delete sess : session_ok sess → session_ok (delete "tracks" sess).
Proof.
  intros (Ht & Hs & Ha). split_and!.
  - by rewrite lookup_delete_eq.
  - intros v. rewrite lookup_delete_ne by done. apply Hs.
  - intros a. unfold account_stored.
    rewrite lookup_delete_ne
      by (intros H; symmetry in H; by apply token_key_not_tracks in H).
    rewrite lookup_delete_ne
      by (intros H; symmetry in H; by apply user_key_not_tracks in H).
    apply Ha.
Qed.

Lemma fetch_stream_session oracle fuel w :
  session (fetch_stream oracle fuel w).2 = session w.
Proof. unfold fetch_stream. by repeat case_match. Qed.

Lemma transfer_stream_world requests_put add w :
  (transfer_stream requests_put add w).2 = w.
Proof. unfold transfer_stream. by repeat case_match. Qed.

Lemma serve_session_ok strip load_dotenv r w :
  session_ok (session w) → session_ok (session (serve strip load_dotenv r w).2).
Proof.
  intros Hok. destruct r; simpl.
  - done.
  - done.
  - unfold save_credentials. by case_match.
  - unfold login. repeat case_match; simpl; try done; by apply session_ok_login.
  - destruct (callback_cases get_access_token current_user code state error w)
      as [[-> _]|(t & token & info & Ht & [-> | ->] & _)]; [done| |].
    + by eapply session_ok_stored.
    + by eapply session_ok_delete, session_ok_stored.
  - unfold fetch_tracks. by case_match.
  - by rewrite fetch_stream_session.
  - unfold show_tracks. by repeat case_match.
  - unfold transfer. by repeat case_match.
  - by rewrite transfer_stream_world.
  - apply session_ok_empty.
Qed.

Lemma reachable_session_ok strip load_dotenv w :
  reachable strip load_dotenv w → session_ok (session w).
Proof.
  induction 1 as [fs env|r w _ IH|w fs env _ IH]; simpl.
  - apply session_ok_empty.
  - by apply serve_session_ok.
  - done.
Qed.

(** The account entries of a reachable session, for the keys the routes
    read. *)
Lemma stored_account_cases sess a :
  account_stored sess a →
  (sess !! (a +:+ "_token") = None ∧ sess !! (a +:+ "_user") = None) ∨
  (∃ t token u, sess !! (a +:+ "_token") = Some (SToken t) ∧
                t !! "access_token" = Some token ∧
                sess !! (a +:+ "_user") = Some (SUser u)).
Proof.
  unfold account_stored.
  destruct (sess !! (a +:+ "_token")) as [[]|],
           (sess !! (a +:+ "_user")) as [[]|]; try done.
  - intros [token Ht]. right. eauto 10.
  - by left.
Qed.

(** X17. The home page never counts the extracted tracks: no route stores
    ['tracks'] in the session, so in every world a browser can reach,
    whatever has been extracted and cached, [index] renders with
    [tracks_count] 0. *)
Theorem index_never_counts_tracks strip load_dotenv w :
  reachable strip load_dotenv w →
  (index w).1
  = Render "index.html"
      [("configured", CBool (is_configured (environ w)));
       ("source_user", CSession (session w !! "source_user"));
       ("dest_user", CSession (session w !! "dest_user"));
       ("tracks_count", CInt 0)].
Proof.
  intros Hw. apply reachable_session_ok in Hw as (Ht & _ & _).
  unfold index. simpl. by rewrite Ht.
Qed.

Lemma index_never_counts_tracks_witness :
  load_tracks (files after_extraction) = inr (extracted api_one_page 3) ∧
  (index after_extraction).1
  = Render "index.html"
      [("configured", CBool false);
       ("source_user",
        CSession (Some (SUser (UserInfo (Some "Ann") (Some "ann") None))));
       ("dest_user", CSession None);
       ("tracks_count", CInt 0)].
Proof.
  split; [vm_compute; reflexivity|].
  rewrite (index_never_counts_tracks (λ s, s) (λ _ env, env) after_extraction).
  - vm_compute. reflexivity.
  - unfold after_extraction. do 3 apply reach_serve. apply reach_fresh.
Defined.

(** X18. In every world a browser can reach, an account is in the session
    whole or not at all: for every account type the token is there exactly
    when the user is, and a stored token yields its client.  So the guard of
    the pages, on the user, and the guard of the streams, on the token,
    agree: [fetch_stream] answers 401 exactly when [fetch_tracks] redirects
    to the home page. *)
Theorem accounts_are_stored_whole strip load_dotenv w :
  reachable strip load_dotenv w →
  (∀ account_type,
     let token_info := session w !! (account_type +:+ "_token") in
     let user := session w !! (account_type +:+ "_user") in
     (is_Some token_info ↔ is_Some user) ∧
     truthy token_info = truthy user ∧
     (∀ v, token_info = Some v → ∃ token, get_spotify_client v = inr token)) ∧
  (∀ oracle fuel,
     (fetch_stream oracle fuel w).1 = Plain "No source token" 401
     ↔ (fetch_tracks w).1 = Redirect "index").
Proof.
  intros Hw. apply reachable_session_ok in Hw as (_ & _ & Ha). split.
  - intros a token_info user. unfold token_info, user.
    destruct (stored_account_cases _ _ (Ha a))
      as [[-> ->]|(t & token & u & -> & Ht & ->)].
    + split_and!; [done|done|]. by intros v.
    + split_and!.
      * split; eauto.
      * by rewrite (token_is_truthy _ _ Ht).
      * intros v [= <-]. exists token. by apply client_of_token.
  - intros oracle fuel. unfold fetch_stream, fetch_tracks.
    destruct (stored_account_cases _ _ (Ha "source"))
      as [[Htok Hu]|(t & token & u & Htok & Ht & Hu)].
    + change ("source" +:+ "_token") with "source_token" in Htok.
      change ("source" +:+ "_user") with "source_user" in Hu.
      by rewrite Htok, Hu.
    + change ("source" +:+ "_token") with "source_token" in Htok.
      change ("source" +:+ "_user") with "source_user" in Hu.
      rewrite Htok, Hu, (token_is_truthy _ _ Ht). simpl. rewrite Ht.
      split; [|done]. by repeat case_match.
Qed.

Lemma accounts_are_stored_whole_witness :
  truthy (session after_extraction !! "source_token")
  = truthy (session after_extraction !! "source_user").
Proof.
  refine (proj1 (proj2 (proj1 (accounts_are_stored_whole
                                 (λ s, s) (λ _ env, env) after_extraction _)
                              "source"))).
  unfold after_extraction. do 3 apply reach_serve. apply reach_fresh.
Defined.




